(** * fnmatch: shell patterns translated to regular expressions

    A shallow embedding of [fnmatch/fnmatch.py]: the escaper
    ([_re_translate], [_re_escape]), the translator ([translate]) and the
    matching entry points ([_compile_pattern], [fnmatchcase], [fnmatch],
    [filter]), together with a model of the regular-expression engine the
    module hands its output to.

    Characters are modelled as [ascii] (one byte per character, the
    ISO-8859-1 view the module itself takes of byte patterns) and Python
    strings as [list ascii]. *)

From Stdlib Require Import List Ascii String Bool Arith Lia.
Import ListNotations.

Open Scope char_scope.
Open Scope list_scope.

(** ** Strings *)

Definition str := list ascii.

(** [L "abc"] is the Python literal ['abc']. *)
Definition L (s : string) : str := list_ascii_of_string s.

Definition ord (c : ascii) : nat := nat_of_ascii c.
Definition chr (i : nat) : ascii := ascii_of_nat i.

(** [pat[i:j]] *)
Definition slice (s : str) (i j : nat) : str := firstn (j - i) (skipn i s).

(** [pat[j] == c], guarded as the source guards it by [j < n]. *)
Definition peek (s : str) (j : nat) (c : ascii) : bool :=
  match nth_error s j with
  | Some x => (x =? c)
  | None => false
  end.

(** [s.replace(old, new)] for a one-character [old]. *)
Definition replace_char (old : ascii) (new : str) (s : str) : str :=
  flat_map (fun x => if (x =? old) then new else [x]) s.

(** ** Results of fallible code *)

Inductive exn := IndexError | ReError | OutOfFuel.

Inductive result (A : Type) :=
| Ok (a : A)
| Raise (e : exn).

Arguments Ok {A} a.
Arguments Raise {A} e.

Definition bind {A B : Type} (m : result A) (k : A -> result B) : result B :=
  match m with
  | Ok a => k a
  | Raise e => Raise e
  end.

Notation "x <- m ;; k" := (bind m (fun x => k))
  (at level 61, m at next level, right associativity).

(** ** The escaper (lines 82-98) *)

(** The bytes of [b'()[]{}?*+-|^$\\.&~# \t\n\r\v\f']. *)
Definition special_bytes : list nat :=
  map ord (L "()[]{}?*+-|^$\.&~# ") ++ [9; 10; 13; 11; 12].

(** [_re_special_chars_map]: a dict from code point to replacement text. *)
Definition _re_special_chars_map : list (nat * str) :=
  map (fun i => (i, "\" :: [chr i])) special_bytes.

Fixpoint lookup (chmap : list (nat * str)) (k : nat) : option str :=
  match chmap with
  | [] => None
  | (k', v) :: rest => if Nat.eqb k k' then Some v else lookup rest k
  end.

(** The [for c in p] loop of [_re_translate]: the first character of [p]
    that has an entry in [chmap], with that entry. *)
Fixpoint first_mapped (chmap : list (nat * str)) (p : str) : option (ascii * str) :=
  match p with
  | [] => None
  | c :: rest =>
      match lookup chmap (ord c) with
      | Some v => Some (c, v)
      | None => first_mapped chmap rest
      end
  end.

Definition _re_translate (p : str) (chmap : list (nat * str)) : str :=
  match first_mapped chmap p with
  | Some (c, v) => replace_char c v p
  | None => p
  end.

(** [_re_escape] on a text string (the [isinstance(pattern, str)] branch). *)
Definition _re_escape (pattern : str) : str :=
  _re_translate pattern _re_special_chars_map.

(** ** The host *)

(** What the module takes from its environment: the platform test of
    line 134, the engine's own [re.escape], [os.path.normcase] and the
    test [os.path is posixpath]. *)
Record host := {
  uefi_micropython : bool;
  re_escape : str -> str;
  normcase : str -> str;
  posixpath : bool
}.

(** Lines 134-138: the escaping of one ordinary character. *)
Definition escape_char (h : host) (c : ascii) : str :=
  if uefi_micropython h then _re_escape [c] else re_escape h [c].

(** ** The translator (lines 100-141) *)

(** [while j < n and pat[j] != ']': j = j+1], run over the text that
    starts at index [j]. *)
Fixpoint find_close (rest : str) (j : nat) : nat :=
  match rest with
  | [] => j
  | c :: rest' => if (c =? "]") then j else find_close rest' (S j)
  end.

(** Lines 116-122: from the index [i] after a [[], the index where the
    search for the closing []] stops. *)
Definition scan_close (pat : str) (i : nat) : nat :=
  let n := List.length pat in
  let j := i in
  let j := if Nat.ltb j n && peek pat j "!" then S j else j in
  let j := if Nat.ltb j n && peek pat j "]" then S j else j in
  find_close (skipn j pat) j.

(** One iteration of the [while i < n] loop: from the scan index and the
    text produced so far to the next index and text. *)
Definition translate_body (h : host) (pat : str) (i : nat) (res : str)
  : result (nat * str) :=
  let n := List.length pat in
  match nth_error pat i with
  | None => Raise IndexError
  | Some c =>
      let i := S i in
      if (c =? "*") then Ok (i, res ++ L ".*")
      else if (c =? "?") then Ok (i, res ++ L ".")
      else if (c =? "[") then
        let j := scan_close pat i in
        if Nat.leb n j then Ok (i, res ++ L "\[")
        else
          let stuff := replace_char "\" (L "\\") (slice pat i j) in
          let i := S j in
          match stuff with
          | [] => Raise IndexError
          | c0 :: tl =>
              let stuff :=
                if (c0 =? "!") then "^" :: tl
                else if (c0 =? "^") then "\" :: stuff
                else stuff in
              Ok (i, res ++ L "[" ++ stuff ++ L "]")
          end
      else Ok (i, res ++ escape_char h c)
  end.

(** The [while i < n] loop, bounded by [fuel] iterations. *)
Fixpoint translate_loop (fuel : nat) (h : host) (pat : str) (i : nat) (res : str)
  : result str :=
  if Nat.ltb i (List.length pat) then
    match fuel with
    | O => Raise OutOfFuel
    | S fuel' =>
        st <- translate_body h pat i res ;;
        translate_loop fuel' h pat (fst st) (snd st)
    end
  else Ok res.

Definition translate_fuel (fuel : nat) (h : host) (pat : str) : result str :=
  res <- translate_loop fuel h pat 0 [] ;;
  Ok (L "(?ms)" ++ res ++ L "\Z").

(** [translate(pat)]: one iteration per character is always enough. *)
Definition translate (h : host) (pat : str) : result str :=
  translate_fuel (List.length pat) h pat.

(** ** The regular-expression engine

    The module imports its engine ([re], [ure] or [_re]); the engine is not
    part of the repository.  Sections 4.1 and 6 of the spec ask for an engine
    that compiles an expression and matches it with dot-matches-newline and
    multi-line modes and an absolute end-of-string anchor.  The model below
    follows the standard [re] module on the syntax the translator can emit:
    the leading inline flags [(?ms)], [.], the [*] quantifier, character
    sets with negation, ranges and escaped members, backslash escapes of
    non-alphanumeric characters, and the end anchor.  Any other construct
    is answered with [ReError]: the engine rejects it or the model does not
    cover it. *)

(** Modelled from the spec: the members of a compiled character set, a
    single character or a range. *)
Inductive set_item :=
| SLit (c : ascii)
| SRange (lo hi : ascii).

(** Modelled from the spec: what matches one character: a literal, the
    dot (with its dot-matches-newline flag) or a set. *)
Inductive atom :=
| Lit (c : ascii)
| Any (dotall : bool)
| InSet (negate : bool) (items : list set_item).

(** Modelled from the spec: a compiled expression is a sequence of atoms,
    starred atoms and end-of-string anchors. *)
Inductive node :=
| One (a : atom)
| Star (a : atom)
| AtEnd.

Definition regex := list node.

Definition newline : ascii := "010".

(** ASCII letters and digits: behind a backslash they are not literals. *)
Definition is_alnum (c : ascii) : bool :=
  let k := ord c in
  (Nat.leb 48 k && Nat.leb k 57) || (Nat.leb 65 k && Nat.leb k 90)
  || (Nat.leb 97 k && Nat.leb k 122).

(** Modelled from the spec: the characters with a meaning of their own
    outside a set. *)
Definition re_meta (c : ascii) : bool :=
  existsb (Ascii.eqb c) (L ".^$*+?{}[]\|()").

(** Modelled from the spec: what the engine's parser holds inside a set:
    nothing, a pending backslash, a member that may still open a range, a
    member followed by [-], and a backslash after that [-]. *)
Inductive pending :=
| PNone
| PBack
| PHave (c : ascii)
| PDash (c : ascii)
| PDashBack (c : ascii).

(** Modelled from the spec: where the engine's parser stands: outside any
    set with the last atom still open to a quantifier, after a backslash,
    just after the [[] that opens a set, or inside a set. *)
Inductive pstate :=
| Top (last : option atom)
| Esc
| SetOpen
| SetBody (negate : bool) (items : list set_item) (p : pending).

Definition flush (last : option atom) (acc : regex) : regex :=
  match last with
  | Some a => acc ++ [One a]
  | None => acc
  end.

(** Modelled from the spec: a character read as the next member of a set.
    A []] closes the set unless it is the first member. *)
Definition set_this (neg : bool) (items : list set_item) (c : ascii) (acc : regex)
  : option (pstate * regex) :=
  if (c =? "]") && negb (Nat.eqb (List.length items) 0)
  then Some (Top (Some (InSet neg items)), acc)
  else if (c =? "\") then Some (SetBody neg items PBack, acc)
  else Some (SetBody neg items (PHave c), acc).

(** Modelled from the spec: a range is added to the set; one that runs
    backwards is rejected ([re] reports a bad character range). *)
Definition set_range (neg : bool) (items : list set_item) (lo hi : ascii) (acc : regex)
  : option (pstate * regex) :=
  if Nat.ltb (ord hi) (ord lo) then None
  else Some (SetBody neg (items ++ [SRange lo hi]) PNone, acc).

(** Modelled from the spec: one character inside a set. *)
Definition set_step (neg : bool) (items : list set_item) (p : pending) (c : ascii)
  (acc : regex) : option (pstate * regex) :=
  match p with
  | PNone => set_this neg items c acc
  | PBack =>
      if is_alnum c then None else Some (SetBody neg items (PHave c), acc)
  | PHave x =>
      if (c =? "-") then Some (SetBody neg items (PDash x), acc)
      else set_this neg (items ++ [SLit x]) c acc
  | PDash x =>
      if (c =? "]") then Some (Top (Some (InSet neg (items ++ [SLit x; SLit "-"]))), acc)
      else if (c =? "\") then Some (SetBody neg items (PDashBack x), acc)
      else set_range neg items x c acc
  | PDashBack x =>
      if is_alnum c then None else set_range neg items x c acc
  end.

(** Modelled from the spec: one character of the expression. *)
Definition re_step (dotall : bool) (st : pstate * regex) (c : ascii)
  : option (pstate * regex) :=
  let (s, acc) := st in
  match s with
  | Top last =>
      if (c =? "*") then
        match last with
        | Some a => Some (Top None, acc ++ [Star a])
        | None => None
        end
      else
        let acc := flush last acc in
        if (c =? ".") then Some (Top (Some (Any dotall)), acc)
        else if (c =? "\") then Some (Esc, acc)
        else if (c =? "[") then Some (SetOpen, acc)
        else if re_meta c then None
        else Some (Top (Some (Lit c)), acc)
  | Esc =>
      if (c =? "Z") then Some (Top None, acc ++ [AtEnd])
      else if is_alnum c then None
      else Some (Top (Some (Lit c)), acc)
  | SetOpen =>
      if (c =? "^") then Some (SetBody true [] PNone, acc)
      else set_step false [] PNone c acc
  | SetBody neg items p => set_step neg items p c acc
  end.

(** Modelled from the spec: the parser run over an expression, left to
    right. *)
Fixpoint re_run (dotall : bool) (st : pstate * regex) (s : str)
  : option (pstate * regex) :=
  match s with
  | [] => Some st
  | c :: rest =>
      match re_step dotall st c with
      | Some st' => re_run dotall st' rest
      | None => None
      end
  end.

(** Before the first character: nothing read, nothing pending. *)
Definition re_start : pstate * regex := @pair pstate regex (Top None) [].

(** Modelled from the spec: an expression is accepted when the parser ends
    outside every set and escape. *)
Definition re_parse (dotall : bool) (s : str) : result regex :=
  match re_run dotall re_start s with
  | Some (Top last, acc) => Ok (flush last acc)
  | _ => Raise ReError
  end.

(** Modelled from the spec: the engine's [compile]; the inline flags are
    read at the very start of the expression. *)
Definition re_compile (s : str) : result regex :=
  match s with
  | "(" :: "?" :: "m" :: "s" :: ")" :: rest => re_parse true rest
  | _ => re_parse false s
  end.

Definition item_ok (c : ascii) (it : set_item) : bool :=
  match it with
  | SLit x => (c =? x)
  | SRange lo hi => Nat.leb (ord lo) (ord c) && Nat.leb (ord c) (ord hi)
  end.

(** Modelled from the spec: does an atom match a character?  The dot
    matches a newline only in dot-matches-newline mode. *)
Definition atom_ok (a : atom) (c : ascii) : bool :=
  match a with
  | Lit x => (c =? x)
  | Any dotall => dotall || negb (c =? newline)
  | InSet neg items => xorb neg (existsb (item_ok c) items)
  end.

(** Modelled from the spec: the [match] method of a compiled expression:
    is there a match that starts at the first character?  Whatever follows
    the match is left alone. *)
Fixpoint re_match (r : regex) : str -> bool :=
  match r with
  | [] => fun _ => true
  | One a :: r' => fun s =>
      match s with
      | c :: s' => atom_ok a c && re_match r' s'
      | [] => false
      end
  | Star a :: r' =>
      fix star (s : str) : bool :=
        re_match r' s
        || match s with
           | c :: s' => atom_ok a c && star s'
           | [] => false
           end
  | AtEnd :: r' => fun s =>
      match s with
      | [] => re_match r' []
      | _ :: _ => false
      end
  end.

(** Modelled from the spec: a match of the whole string, from its first
    character to its last. *)
Fixpoint re_fullmatch (r : regex) : str -> bool :=
  match r with
  | [] => fun s => match s with [] => true | _ :: _ => false end
  | One a :: r' => fun s =>
      match s with
      | c :: s' => atom_ok a c && re_fullmatch r' s'
      | [] => false
      end
  | Star a :: r' =>
      fix star (s : str) : bool :=
        re_fullmatch r' s
        || match s with
           | c :: s' => atom_ok a c && star s'
           | [] => false
           end
  | AtEnd :: r' => fun s =>
      match s with
      | [] => re_fullmatch r' []
      | _ :: _ => false
      end
  end.

(** Does the expression [e], once compiled, match at the start of [s]? *)
Definition expr_matches (e : str) (s : str) : result bool :=
  r <- re_compile e ;; Ok (re_match r s).

(** ** The matching entry points (lines 28-80) *)

(** [_compile_pattern] on a text pattern (a byte pattern is decoded one
    byte to one character, translated and encoded back, which this model of
    characters does not tell apart); the bound [match] method it returns is
    represented by the compiled expression, applied with [re_match]. *)
Definition _compile_pattern (h : host) (pat : str) : result regex :=
  res <- translate h pat ;; re_compile res.

Definition fnmatchcase (h : host) (name pat : str) : result bool :=
  r <- _compile_pattern h pat ;; Ok (re_match r name).

Definition fnmatch (h : host) (name pat : str) : result bool :=
  let name := normcase h name in
  let pat := normcase h pat in
  fnmatchcase h name pat.

(** The [for name in names] loops of [filter], appending to [result]. *)
Definition filter_loop (test : str -> bool) (names : list str) : list str :=
  fold_left (fun result name => if test name then result ++ [name] else result)
            names [].

Definition filter (h : host) (names : list str) (pat : str) : result (list str) :=
  let pat := normcase h pat in
  r <- _compile_pattern h pat ;;
  if posixpath h
  then Ok (filter_loop (fun name => re_match r name) names)
  else Ok (filter_loop (fun name => re_match r (normcase h name)) names).

(** ** What the claims speak of *)

(** The scan for the closing bracket passes an optional leading [!] and
    then an optional first member []]. *)
Definition skip_bang (s : str) : str :=
  match s with
  | c :: r => if (c =? "!") then r else s
  | [] => s
  end.

Definition skip_first (s : str) : str :=
  match s with
  | c :: r => if (c =? "]") then r else s
  | [] => s
  end.

(** [content] is what stands between a [[] and the []] that closes it. *)
Definition group_content (content : str) : Prop :=
  content <> [] /\ content <> ["!"] /\
  ~ In "]" (skip_first (skip_bang content)).

(** No []] closes a [[] that is followed by [rest]. *)
Definition no_close (rest : str) : Prop :=
  ~ In "]" (skip_first (skip_bang rest)).

(** [ord(c) in _re_special_chars_map] *)
Definition is_special (c : ascii) : bool :=
  existsb (Nat.eqb (ord c)) special_bytes.

(** An escaping function with the contract of the escaper: the characters
    of the special set get a backslash, alphanumerics are left alone, and
    any other character is returned as it is or behind a backslash. *)
Definition escapes_literally (esc : str -> str) : Prop :=
  forall c,
    (is_special c = true -> esc [c] = ["\"; c]) /\
    (is_alnum c = true -> esc [c] = [c]) /\
    (esc [c] = [c] \/ esc [c] = ["\"; c]).

(** The assumption on the escaping of a host: where the engine's own
    [re.escape] is used (line 138) it escapes literally. *)
Definition escape_ok (h : host) : Prop :=
  uefi_micropython h = false -> escapes_literally (re_escape h).

(** The assumption of line 63: on a posix host [normcase] changes
    nothing. *)
Definition posix_nop (h : host) : Prop :=
  posixpath h = true -> forall s, normcase h s = s.

(** A pattern character that is neither a wildcard nor a bracket. *)
Definition ordinary (c : ascii) : bool :=
  negb ((c =? "*") || (c =? "?") || (c =? "[")).

(** Three hosts: the UEFI MicroPython build, a posix host and a host whose
    [normcase] folds case. *)

(** Modelled from the spec: a case-folding [normcase] lowercases (and, as
    [ntpath] does, turns slashes into backslashes). *)
Definition lower (c : ascii) : ascii :=
  let k := ord c in
  if Nat.leb 65 k && Nat.leb k 90 then chr (k + 32) else c.

Definition nt_normcase (s : str) : str :=
  map (fun c => if (c =? "/") then "\" else lower c) s.

Definition uefi_host : host :=
  {| uefi_micropython := true; re_escape := fun s => s;
     normcase := fun s => s; posixpath := true |}.

Definition posix_host : host :=
  {| uefi_micropython := false; re_escape := _re_escape;
     normcase := fun s => s; posixpath := true |}.

Definition nt_host : host :=
  {| uefi_micropython := false; re_escape := _re_escape;
     normcase := nt_normcase; posixpath := false |}.

(** ** Notions used in the proofs *)

(** Backslashes doubled, as line 126 does. *)
Abbreviation dbl := (replace_char "\" (L "\\")).

(** The text of a set as the translator writes it: backslashes doubled,
    then a leading [!] turned into [^] or a leading [^] escaped. *)
Definition class_text (content : str) : str :=
  match replace_char "\" (L "\\") content with
  | [] => []
  | c0 :: tl =>
      if (c0 =? "!") then "^" :: tl
      else if (c0 =? "^") then "\" :: c0 :: tl
      else c0 :: tl
  end.

(** The pieces of text an iteration can append. *)
Inductive chunk_of (h : host) : str -> Prop :=
| ck_star : chunk_of h (L ".*")
| ck_question : chunk_of h (L ".")
| ck_open : chunk_of h (L "\[")
| ck_group content :
    group_content content -> chunk_of h (L "[" ++ class_text content ++ L "]")
| ck_char c : chunk_of h (escape_char h c).

(** Between two members the parser holds no half-read escape. *)
Definition ready (p : pending) : Prop :=
  match p with
  | PNone | PHave _ | PDash _ => True
  | PBack | PDashBack _ => False
  end.

(** The set has a member, read or pending. *)
Definition started (items : list set_item) (p : pending) : Prop :=
  items <> [] \/ p <> PNone.

(** The parser failed, or is inside the set between two members. *)
Definition in_set (neg : bool) (acc : regex) (o : option (pstate * regex)) : Prop :=
  match o with
  | None => True
  | Some (SetBody neg' items p, acc') =>
      neg' = neg /\ acc' = acc /\ ready p /\ started items p
  | Some _ => False
  end.

(** The parser failed or is back outside every set. *)
Definition at_top (o : option (pstate * regex)) : Prop :=
  match o with
  | None => True
  | Some (Top _, _) => True
  | Some _ => False
  end.

(** One literal character as a node of a compiled expression. *)
Definition lit (c : ascii) : node := One (Lit c).

(** A group is negated when its content starts with [!]; its members are
    what follows that mark. *)
Definition negated (content : str) : bool :=
  match content with
  | c :: _ => (c =? "!")
  | [] => false
  end.

Definition members (content : str) : str := skip_bang content.

(** The whitespace characters the escaper names. *)
Definition is_space (c : ascii) : bool :=
  existsb (Nat.eqb (ord c)) [32; 9; 10; 13; 11; 12].

(** Reading a result as a truth value. *)
Definition holds (x : result bool) : bool :=
  match x with
  | Ok true => true
  | _ => false
  end.

(** ** The byte-string branches (lines 49-52 and 96-98) *)

(** A byte string; [str(b, 'ISO-8859-1')] and [bytes(s, 'ISO-8859-1')]
    (also written [s.encode('latin1')]) map a byte to the character of the
    same code and back. *)
Definition bytes := list Byte.byte.

Definition decode_latin1 (b : bytes) : str := map ascii_of_byte b.

Definition encode_latin1 (s : str) : bytes := map byte_of_ascii s.

(** What [isinstance(pattern, str)] and [isinstance(pat, bytes)] tell
    apart. *)
Inductive pyvalue :=
| Text (s : str)
| Bytes (b : bytes).

(** [s.translate(table)] for a table from code points to strings: every
    character with an entry is replaced by it. *)
Definition str_translate (chmap : list (nat * str)) (s : str) : str :=
  flat_map (fun c => match lookup chmap (ord c) with
                     | Some v => v
                     | None => [c]
                     end) s.

(** [_re_escape] with both its branches (lines 90-98). *)
Definition _re_escape_any (pattern : pyvalue) : pyvalue :=
  match pattern with
  | Text s => Text (_re_translate s _re_special_chars_map)
  | Bytes b =>
      let pattern := decode_latin1 b in
      Bytes (encode_latin1 (str_translate _re_special_chars_map pattern))
  end.




(** ** Patterns as sequences of tokens *)

(** The text accumulated by the loop of [translate], without the flags and
    the anchor of line 141. *)
Definition translate_res (h : host) (pat : str) : result str :=
  translate_loop (List.length pat) h pat 0 [].

(** The pieces the scan of [translate] cuts a pattern into: the two
    wildcards, an ordinary character, a [[] that nothing closes and a group
    with the text between its brackets. *)
Inductive token :=
| TStar
| TQuestion
| TChar (c : ascii)
| TOpen
| TGroup (content : str).

Definition token_text (t : token) : str :=
  match t with
  | TStar => L "*"
  | TQuestion => L "?"
  | TChar c => [c]
  | TOpen => L "["
  | TGroup content => L "[" ++ content ++ L "]"
  end.

Definition pattern_of (ts : list token) : str := flat_map token_text ts.

(** What each piece is translated to. *)
Definition token_regex (h : host) (t : token) : str :=
  match t with
  | TStar => L ".*"
  | TQuestion => L "."
  | TChar c => escape_char h c
  | TOpen => L "\["
  | TGroup content => L "[" ++ class_text content ++ L "]"
  end.

(** A sequence of tokens cut as the scan cuts: characters are ordinary, a
    group has a content that its []] closes, and nothing closes an open
    bracket in what follows it. *)
Inductive tokens_wf : list token -> Prop :=
| wf_nil : tokens_wf []
| wf_star ts : tokens_wf ts -> tokens_wf (TStar :: ts)
| wf_question ts : tokens_wf ts -> tokens_wf (TQuestion :: ts)
| wf_char c ts : ordinary c = true -> tokens_wf ts -> tokens_wf (TChar c :: ts)
| wf_open ts : no_close (pattern_of ts) -> tokens_wf ts -> tokens_wf (TOpen :: ts)
| wf_group content ts :
    group_content content -> tokens_wf ts -> tokens_wf (TGroup content :: ts).

(** A token without a range: any token but a group with a [-]. *)
Definition token_plain (t : token) : Prop :=
  match t with
  | TGroup content => ~ In "-" content
  | _ => True
  end.

(** The characters a one-character token stands for, as the docstring of
    [fnmatch] has them (lines 33-36): [?] any character, [[seq]] a character
    of [seq], [[!seq]] a character not in [seq]; a character stands for
    itself. *)
Definition token_char (t : token) (c : ascii) : bool :=
  match t with
  | TStar => true
  | TQuestion => true
  | TChar x => (c =? x)
  | TOpen => (c =? "[")
  | TGroup content =>
      if negated content
      then negb (existsb (Ascii.eqb c) (members content))
      else existsb (Ascii.eqb c) (members content)
  end.

(** Shell matching of a whole name: [*] stands for any run of characters,
    every other token for one character. *)
Inductive glob : list token -> str -> Prop :=
| glob_nil : glob [] []
| glob_star ts s1 s2 : glob ts s2 -> glob (TStar :: ts) (s1 ++ s2)
| glob_one t ts c s :
    t <> TStar -> token_char t c = true -> glob ts s -> glob (t :: ts) (c :: s).

(** The compiled form of a token. *)
Definition token_node (t : token) : node :=
  match t with
  | TStar => Star (Any true)
  | TQuestion => One (Any true)
  | TChar c => One (Lit c)
  | TOpen => One (Lit "[")
  | TGroup content => One (InSet (negated content) (map SLit (members content)))
  end.

(** The number of tokens that stand for one character each. *)
Definition one_char_tokens (ts : list token) : nat :=
  List.length (List.filter (fun t => match t with TStar => false | _ => true end) ts).

(** * Proofs *)

(** ** Lists and indices *)

Lemma skipn_S_tl {A} (l : list A) (j : nat) : skipn (S j) l = tl (skipn j l).
Proof.
  revert j; induction l as [|x l IH]; intros [|j]; simpl; auto.
  rewrite <- IH. reflexivity.
Qed.

Lemma peek_head (s : str) (j : nat) (c : ascii) :
  Nat.ltb j (List.length s) && peek s j c
  = match skipn j s with x :: _ => (x =? c) | [] => false end.
Proof.
  unfold peek. revert s; induction j as [|j IH]; intros [|x s]; simpl; auto.
  rewrite <- IH. reflexivity.
Qed.

Lemma skipn_nth_error {A} (l : list A) (i : nat) (x : A) :
  nth_error l i = Some x -> skipn i l = x :: skipn (S i) l.
Proof.
  revert l; induction i as [|i IH]; intros [|y l] H; simpl in *; try discriminate.
  - congruence.
  - apply IH in H. rewrite H. reflexivity.
Qed.

Lemma skipn_length_eq {A} (l : list A) (i : nat) :
  i <= List.length l -> List.length l = i + List.length (skipn i l).
Proof.
  intros H. rewrite length_skipn. lia.
Qed.

Lemma find_close_app (a t : str) (j : nat) :
  ~ In "]" a -> find_close (a ++ "]" :: t) j = j + List.length a.
Proof.
  revert j; induction a as [|x a IH]; intros j H; simpl.
  - lia.
  - destruct (Ascii.eqb_spec x "]") as [->|Hx].
    + exfalso. apply H. left. reflexivity.
    + rewrite IH by (intro; apply H; right; assumption). lia.
Qed.

Lemma find_close_none (a : str) (j : nat) :
  ~ In "]" a -> find_close a j = j + List.length a.
Proof.
  revert j; induction a as [|x a IH]; intros j H; simpl.
  - lia.
  - destruct (Ascii.eqb_spec x "]") as [->|Hx].
    + exfalso. apply H. left. reflexivity.
    + rewrite IH by (intro; apply H; right; assumption). lia.
Qed.

(** Every text either has no closing bracket or splits at it. *)
Lemma close_split (a : str) :
  ~ In "]" a \/ exists b t, a = b ++ "]" :: t /\ ~ In "]" b.
Proof.
  induction a as [|x a IH].
  - left. intros [].
  - destruct (Ascii.eqb_spec x "]") as [->|Hx].
    + right. exists [], a. split; [reflexivity | intros []].
    + destruct IH as [IH | (b & t & -> & Hb)].
      * left. intros [H|H]; [congruence | auto].
      * right. exists (x :: b), t. split; [reflexivity|].
        intros [H|H]; [congruence | auto].
Qed.

(** ** The scan for the closing bracket *)

Lemma scan_close_closed (pat : str) (i : nat) (content tail : str) :
  skipn i pat = content ++ "]" :: tail ->
  group_content content ->
  scan_close pat i = i + List.length content.
Proof.
  intros Hs (Hne & Hbang & Hno). unfold scan_close.
  rewrite (peek_head pat i "!"), Hs.
  destruct content as [|x c1]; [congruence|]. simpl app. cbv iota.
  revert Hno. simpl skip_bang.
  destruct (Ascii.eqb_spec x "!") as [->|Hx].
  - (* a leading ! *)
    rewrite (peek_head pat (S i) "]"), skipn_S_tl, Hs. simpl tl.
    destruct c1 as [|y c2]; [congruence|]. simpl app. cbv iota.
    simpl skip_first.
    destruct (Ascii.eqb_spec y "]") as [->|Hy]; intros Hno.
    + rewrite !skipn_S_tl, Hs. simpl tl.
      rewrite find_close_app by assumption. simpl. lia.
    + rewrite skipn_S_tl, Hs. simpl tl.
      change (y :: c2 ++ "]" :: tail) with ((y :: c2) ++ "]" :: tail).
      rewrite find_close_app by assumption. simpl. lia.
  - rewrite (peek_head pat i "]"), Hs. simpl app. cbv iota.
    simpl skip_first.
    destruct (Ascii.eqb_spec x "]") as [->|Hy]; intros Hno.
    + rewrite skipn_S_tl, Hs. simpl tl.
      rewrite find_close_app by assumption. simpl. lia.
    + rewrite Hs.
      rewrite find_close_app by assumption. simpl. lia.
Qed.

Lemma scan_close_open (pat : str) (i : nat) :
  i <= List.length pat ->
  no_close (skipn i pat) ->
  List.length pat <= scan_close pat i.
Proof.
  intros Hi Hno. unfold no_close in Hno. unfold scan_close.
  pose proof (skipn_length_eq pat i Hi) as Hlen.
  rewrite (peek_head pat i "!").
  destruct (skipn i pat) as [|x r1] eqn:Hs.
  - simpl in Hlen. rewrite (peek_head pat i "]"), Hs, Hs. simpl. lia.
  - simpl in Hlen. revert Hno. simpl skip_bang.
    destruct (Ascii.eqb_spec x "!") as [->|Hx].
    + rewrite (peek_head pat (S i) "]"), skipn_S_tl, Hs. simpl tl.
      destruct r1 as [|y r2].
      * intros _. rewrite skipn_S_tl, Hs. simpl. simpl in Hlen. lia.
      * simpl in Hlen. simpl skip_first.
        destruct (Ascii.eqb_spec y "]") as [->|Hy]; intros Hno.
        -- rewrite !skipn_S_tl, Hs. simpl tl.
           rewrite find_close_none by assumption. lia.
        -- rewrite skipn_S_tl, Hs. simpl tl.
           rewrite find_close_none by assumption. simpl. lia.
    + rewrite (peek_head pat i "]"), Hs. simpl skip_first.
      destruct (Ascii.eqb_spec x "]") as [->|Hy]; intros Hno.
      * rewrite skipn_S_tl, Hs. simpl tl.
        rewrite find_close_none by assumption. lia.
      * rewrite Hs. rewrite find_close_none by assumption. simpl. lia.
Qed.

Lemma skip_first_neq (x : ascii) (r : str) :
  x <> "]" -> skip_first (x :: r) = x :: r.
Proof.
  intros H. unfold skip_first. destruct (Ascii.eqb_spec x "]"); congruence.
Qed.

Lemma skip_bang_neq (x : ascii) (r : str) :
  x <> "!" -> skip_bang (x :: r) = x :: r.
Proof.
  intros H. unfold skip_bang. destruct (Ascii.eqb_spec x "!"); congruence.
Qed.

(** What follows a [[] either leaves it open or holds a group. *)
Lemma bracket_cases (rest : str) :
  no_close rest \/
  exists content tail, rest = content ++ "]" :: tail /\ group_content content.
Proof.
  unfold no_close, group_content.
  destruct rest as [|x r1]; [left; intros []|].
  destruct (Ascii.eqb_spec x "!") as [->|Hx].
  - change (skip_bang ("!" :: r1)) with r1.
    destruct r1 as [|y r2]; [left; intros []|].
    destruct (Ascii.eqb_spec y "]") as [->|Hy].
    + change (skip_first ("]" :: r2)) with r2.
      destruct (close_split r2) as [H | (b & t & -> & Hb)]; [left; exact H|].
      right. exists ("!" :: "]" :: b), t.
      repeat split; try discriminate. exact Hb.
    + rewrite (skip_first_neq y r2 Hy).
      destruct (close_split (y :: r2)) as [H | (b & t & E & Hb)]; [left; exact H|].
      right. exists ("!" :: b), t. rewrite E.
      destruct b as [|z b]; [simpl in E; congruence|].
      simpl in E. injection E as <- _.
      repeat split; try discriminate.
      change (skip_bang ("!" :: y :: b)) with (y :: b).
      rewrite (skip_first_neq y b Hy). exact Hb.
  - rewrite (skip_bang_neq x r1 Hx).
    destruct (Ascii.eqb_spec x "]") as [->|Hy].
    + change (skip_first ("]" :: r1)) with r1.
      destruct (close_split r1) as [H | (b & t & -> & Hb)]; [left; exact H|].
      right. exists ("]" :: b), t.
      repeat split; try discriminate. exact Hb.
    + rewrite (skip_first_neq x r1 Hy).
      destruct (close_split (x :: r1)) as [H | (b & t & E & Hb)]; [left; exact H|].
      right. exists b, t. rewrite E.
      destruct b as [|z b]; [simpl in E; congruence|].
      simpl in E. injection E as <- _.
      repeat split; try discriminate.
      * intros E'. injection E' as E' _. congruence.
      * rewrite (skip_bang_neq x b Hx), (skip_first_neq x b Hy). exact Hb.
Qed.

(** ** One iteration of the translator *)

Lemma replace_char_nil (old : ascii) (new s : str) :
  new <> [] -> replace_char old new s = [] -> s = [].
Proof.
  intros Hn. destruct s as [|x s]; [reflexivity|].
  unfold replace_char. simpl. destruct (x =? old).
  - destruct new; [congruence | discriminate].
  - discriminate.
Qed.

Lemma body_star (h : host) (pat : str) (i : nat) (res : str) :
  nth_error pat i = Some "*" ->
  translate_body h pat i res = Ok (S i, res ++ L ".*").
Proof. intros H. unfold translate_body. rewrite H. reflexivity. Qed.

Lemma body_question (h : host) (pat : str) (i : nat) (res : str) :
  nth_error pat i = Some "?" ->
  translate_body h pat i res = Ok (S i, res ++ L ".").
Proof. intros H. unfold translate_body. rewrite H. reflexivity. Qed.

Lemma body_ordinary (h : host) (pat : str) (i : nat) (res : str) (c : ascii) :
  nth_error pat i = Some c -> ordinary c = true ->
  translate_body h pat i res = Ok (S i, res ++ escape_char h c).
Proof.
  intros H Ho. unfold translate_body. rewrite H.
  unfold ordinary in Ho. apply negb_true_iff in Ho.
  apply orb_false_iff in Ho. destruct Ho as [Ho H3].
  apply orb_false_iff in Ho. destruct Ho as [H1 H2].
  rewrite H1, H2, H3. reflexivity.
Qed.

Lemma body_open (h : host) (pat : str) (i : nat) (res : str) :
  nth_error pat i = Some "[" ->
  no_close (skipn (S i) pat) ->
  translate_body h pat i res = Ok (S i, res ++ L "\[").
Proof.
  intros H Hno. unfold translate_body. rewrite H. simpl Ascii.eqb. cbv iota.
  assert (Hi : S i <= List.length pat).
  { assert (i < List.length pat) by (apply nth_error_Some; congruence). lia. }
  pose proof (scan_close_open pat (S i) Hi Hno) as Hj.
  apply Nat.leb_le in Hj. rewrite Hj. reflexivity.
Qed.

Lemma body_closed (h : host) (pat : str) (i : nat) (res content tail : str) :
  nth_error pat i = Some "[" ->
  skipn (S i) pat = content ++ "]" :: tail ->
  group_content content ->
  translate_body h pat i res
  = Ok (S (S i + List.length content),
        res ++ L "[" ++ class_text content ++ L "]").
Proof.
  intros H Hs Hg. unfold translate_body. rewrite H. simpl Ascii.eqb. cbv iota.
  rewrite (scan_close_closed pat (S i) content tail Hs Hg).
  assert (Hi : S i <= List.length pat).
  { assert (i < List.length pat) by (apply nth_error_Some; congruence). lia. }
  pose proof (skipn_length_eq pat (S i) Hi) as Hlen.
  rewrite Hs, length_app in Hlen. simpl in Hlen.
  assert (Hj : Nat.leb (List.length pat) (S i + List.length content) = false)
    by (apply Nat.leb_gt; lia).
  rewrite Hj. unfold slice. rewrite Hs.
  replace (S i + List.length content - S i) with (List.length content + 0) by lia.
  rewrite firstn_app_2. simpl firstn. rewrite app_nil_r.
  unfold class_text.
  destruct (replace_char "\" (L "\\") content) as [|c0 tl] eqn:E.
  - apply replace_char_nil in E; [|discriminate].
    destruct Hg as [Hne _]. congruence.
  - reflexivity.
Qed.

(** Every iteration succeeds, appends to the text and moves the index
    forward, never past the end. *)
Lemma body_progress (h : host) (pat : str) (i : nat) (res : str) :
  i < List.length pat ->
  exists i' chunk,
    translate_body h pat i res = Ok (i', res ++ chunk) /\
    i < i' <= List.length pat /\ chunk_of h chunk.
Proof.
  intros Hi.
  destruct (nth_error pat i) as [c|] eqn:Hc;
    [| apply nth_error_None in Hc; lia].
  destruct (Ascii.eqb_spec c "*") as [->|H1].
  { exists (S i), (L ".*"). rewrite body_star by assumption.
    repeat split; [lia | lia | constructor]. }
  destruct (Ascii.eqb_spec c "?") as [->|H2].
  { exists (S i), (L "."). rewrite body_question by assumption.
    repeat split; [lia | lia | constructor]. }
  destruct (Ascii.eqb_spec c "[") as [->|H3].
  - destruct (bracket_cases (skipn (S i) pat)) as [Hno | (content & tail & Hs & Hg)].
    + exists (S i), (L "\["). rewrite body_open by assumption.
      repeat split; [lia | lia | constructor].
    + exists (S (S i + List.length content)), (L "[" ++ class_text content ++ L "]").
      rewrite (body_closed h pat i res content tail Hc Hs Hg).
      assert (Hlen := skipn_length_eq pat (S i) Hi).
      rewrite Hs, length_app in Hlen. simpl in Hlen.
      repeat split; [lia | lia | constructor; assumption].
  - exists (S i), (escape_char h c). rewrite (body_ordinary h pat i res c Hc).
    + repeat split; [lia | lia | constructor].
    + unfold ordinary.
      apply Ascii.eqb_neq in H1, H2, H3. rewrite H1, H2, H3. reflexivity.
Qed.

(** ** The loop *)

Lemma translate_loop_total (h : host) (pat : str) :
  forall fuel i res,
    List.length pat <= i + fuel ->
    exists out, translate_loop fuel h pat i res = Ok out.
Proof.
  induction fuel as [|fuel IH]; intros i res Hf.
  - exists res. simpl.
    assert (E : Nat.ltb i (List.length pat) = false) by (apply Nat.ltb_ge; lia).
    rewrite E. reflexivity.
  - simpl. destruct (Nat.ltb i (List.length pat)) eqn:E.
    + apply Nat.ltb_lt in E.
      destruct (body_progress h pat i res E) as (i' & chunk & Hb & Hi' & _).
      rewrite Hb. simpl. apply IH. lia.
    + exists res. reflexivity.
Qed.

(** More fuel than needed changes nothing. *)
Lemma translate_loop_fuel (h : host) (pat : str) :
  forall fuel fuel' i res,
    List.length pat <= i + fuel -> fuel <= fuel' ->
    translate_loop fuel' h pat i res = translate_loop fuel h pat i res.
Proof.
  induction fuel as [|fuel IH]; intros fuel' i res Hf Hle.
  - assert (E : Nat.ltb i (List.length pat) = false) by (apply Nat.ltb_ge; lia).
    destruct fuel'; simpl; rewrite E; reflexivity.
  - destruct fuel' as [|fuel']; [lia|]. simpl.
    destruct (Nat.ltb i (List.length pat)) eqn:E; [|reflexivity].
    apply Nat.ltb_lt in E.
    destruct (body_progress h pat i res E) as (i' & chunk & Hb & Hi' & _).
    rewrite Hb. simpl. apply IH; lia.
Qed.

Lemma translate_total_aux (h : host) (pat : str) :
  exists out, translate h pat = Ok out.
Proof.
  unfold translate, translate_fuel.
  destruct (translate_loop_total h pat (List.length pat) 0 []) as [res Hres];
    [lia|].
  rewrite Hres. simpl. eauto.
Qed.

(** ** The escaper *)

Ltac each_ascii c := destruct c as [[] [] [] [] [] [] [] []].

Lemma _re_escape_char (c : ascii) :
  _re_escape [c] = if is_special c then ["\"; c] else [c].
Proof. each_ascii c; reflexivity. Qed.

Lemma meta_is_special (c : ascii) : re_meta c = true -> is_special c = true.
Proof. each_ascii c; vm_compute; congruence. Qed.

Lemma alnum_not_special (c : ascii) : is_alnum c = true -> is_special c = false.
Proof. each_ascii c; vm_compute; congruence. Qed.

Lemma _re_escape_literally : escapes_literally _re_escape.
Proof.
  intros c. rewrite _re_escape_char. repeat split.
  - intros ->. reflexivity.
  - intros H. rewrite (alnum_not_special c H). reflexivity.
  - destruct (is_special c); auto.
Qed.

(** Under the escaping assumption an escaped character is the character itself, if the
    engine gives it no meaning, or the character behind a backslash, if it
    is not alphanumeric. *)
Lemma escape_char_cases (h : host) (c : ascii) :
  escape_ok h ->
  (escape_char h c = [c] /\ re_meta c = false) \/
  (escape_char h c = ["\"; c] /\ is_alnum c = false).
Proof.
  intros Hesc.
  assert (He : (is_special c = true -> escape_char h c = ["\"; c]) /\
               (is_alnum c = true -> escape_char h c = [c]) /\
               (escape_char h c = [c] \/ escape_char h c = ["\"; c])).
  { revert Hesc. unfold escape_ok, escape_char.
    destruct (uefi_micropython h); intros Hesc.
    - apply _re_escape_literally.
    - apply (Hesc eq_refl). }
  destruct He as (Hs & Ha & Hc).
  destruct Hc as [Hc|Hc]; [left | right]; split; try assumption.
  - destruct (re_meta c) eqn:Hm; [|reflexivity].
    apply meta_is_special in Hm. rewrite (Hs Hm) in Hc. discriminate.
  - destruct (is_alnum c) eqn:Hn; [|reflexivity].
    rewrite (Ha eq_refl) in Hc. discriminate.
Qed.

(** ** The engine: reading an expression *)

Lemma re_run_app (d : bool) (a b : str) :
  forall st,
    re_run d st (a ++ b)
    = match re_run d st a with
      | Some st' => re_run d st' b
      | None => None
      end.
Proof.
  induction a as [|c a IH]; intros st; simpl; [reflexivity|].
  destruct (re_step d st c); [apply IH | reflexivity].
Qed.

Lemma meta_chars (c : ascii) :
  re_meta c = false ->
  (c =? "*") = false /\ (c =? ".") = false /\ (c =? "\") = false /\
  (c =? "[") = false.
Proof.
  intros H. repeat split; apply Ascii.eqb_neq; intros ->; discriminate.
Qed.

Lemma run_escaped (d : bool) (h : host) (c : ascii) (last : option atom) (acc : regex) :
  escape_ok h ->
  re_run d (Top last, acc) (escape_char h c)
  = Some (Top (Some (Lit c)), flush last acc).
Proof.
  intros Hh. destruct (escape_char_cases h c Hh) as [[-> Hm] | [-> Ha]].
  - simpl. destruct (meta_chars c Hm) as (-> & -> & -> & ->).
    rewrite Hm. reflexivity.
  - simpl.
    assert (Hz : (c =? "Z") = false)
      by (apply Ascii.eqb_neq; intros ->; discriminate).
    rewrite Hz, Ha. reflexivity.
Qed.

Lemma run_dot_star (d : bool) (last : option atom) (acc : regex) :
  re_run d (Top last, acc) (L ".*") = Some (Top None, flush last acc ++ [Star (Any d)]).
Proof. reflexivity. Qed.

Lemma run_dot (d : bool) (last : option atom) (acc : regex) :
  re_run d (Top last, acc) (L ".") = Some (Top (Some (Any d)), flush last acc).
Proof. reflexivity. Qed.

Lemma run_bracket_literal (d : bool) (last : option atom) (acc : regex) :
  re_run d (Top last, acc) (L "\[") = Some (Top (Some (Lit "[")), flush last acc).
Proof. reflexivity. Qed.

Lemma run_end_anchor (d : bool) (last : option atom) (acc : regex) :
  re_run d (Top last, acc) (L "\Z") = Some (Top None, flush last acc ++ [AtEnd]).
Proof. reflexivity. Qed.

(** ** The engine: reading a set *)

Lemma dbl_cons (x : ascii) (m : str) :
  dbl (x :: m) = (if (x =? "\") then L "\\" else [x]) ++ dbl m.
Proof. reflexivity. Qed.

Lemma dbl_cons_neq (x : ascii) (m : str) :
  x <> "\" -> dbl (x :: m) = x :: dbl m.
Proof.
  intros H. rewrite dbl_cons. apply Ascii.eqb_neq in H. rewrite H. reflexivity.
Qed.

Lemma snoc_not_nil {A} (l : list A) (x : A) : l ++ [x] <> [].
Proof. destruct l; discriminate. Qed.

Lemma run_member (d neg : bool) (items : list set_item) (p : pending)
  (acc : regex) (x : ascii) :
  x <> "]" -> ready p ->
  in_set neg acc (re_run d (SetBody neg items p, acc) (dbl [x])).
Proof.
  intros Hx Hp. rewrite dbl_cons. simpl app.
  assert (Hc : (x =? "]") = false) by (apply Ascii.eqb_neq; assumption).
  destruct (Ascii.eqb_spec x "\") as [->|Hb].
  - destruct p; try contradiction; simpl.
    + repeat split; auto. right; discriminate.
    + repeat split; auto. right; discriminate.
    + unfold set_range. destruct (Nat.ltb (ord "\") (ord c)); simpl; auto.
      repeat split; auto. left. apply snoc_not_nil.
  - assert (Hb' : (x =? "\") = false) by (apply Ascii.eqb_neq; assumption).
    destruct p; try contradiction; simpl.
    + unfold set_this. rewrite Hc, Hb'. simpl.
      repeat split; auto. right; discriminate.
    + destruct (x =? "-").
      * simpl. repeat split; auto. right; discriminate.
      * unfold set_this. rewrite Hc, Hb'. simpl.
        repeat split; auto. right; discriminate.
    + rewrite Hc, Hb'. unfold set_range.
      destruct (Nat.ltb (ord x) (ord c)); simpl; auto.
      repeat split; auto. left. apply snoc_not_nil.
Qed.

Lemma run_members (d neg : bool) (acc : regex) (m : str) :
  ~ In "]" m ->
  forall items p,
    ready p -> (m <> [] \/ started items p) ->
    in_set neg acc (re_run d (SetBody neg items p, acc) (dbl m)).
Proof.
  induction m as [|x m IH]; intros Hno items p Hp Hs.
  - simpl. destruct Hs as [Hs|Hs]; [congruence|]. repeat split; auto.
  - change (x :: m) with ([x] ++ m). unfold replace_char.
    rewrite flat_map_app. fold (dbl [x]). fold (dbl m).
    rewrite re_run_app.
    assert (Hx : x <> "]") by (intros ->; apply Hno; left; reflexivity).
    pose proof (run_member d neg items p acc x Hx Hp) as H1.
    destruct (re_run d (SetBody neg items p, acc) (dbl [x]))
      as [[[ | | | neg' items' p'] acc']|]; simpl in H1; try contradiction.
    + destruct H1 as (-> & -> & Hp' & Hs').
      apply IH; auto. intros Hin. apply Hno. right. assumption.
    + exact I.
Qed.

(** The first member of a set may be a closing bracket. *)
Lemma run_set_body (d neg : bool) (acc : regex) (m : str) :
  m <> [] -> ~ In "]" (skip_first m) ->
  in_set neg acc (re_run d (SetBody neg [] PNone, acc) (dbl m)).
Proof.
  intros Hne Hno. destruct m as [|x m]; [congruence|].
  destruct (Ascii.eqb_spec x "]") as [->|Hx].
  - change (skip_first ("]" :: m)) with m in Hno.
    rewrite dbl_cons_neq by discriminate.
    change (re_run d (SetBody neg [] PNone, acc) ("]" :: dbl m))
      with (re_run d (SetBody neg [] (PHave "]"), acc) (dbl m)).
    apply run_members; simpl; auto. right. right. discriminate.
  - rewrite (skip_first_neq x m Hx) in Hno.
    apply run_members; simpl; auto.
Qed.

Lemma step_close (d neg : bool) (items : list set_item) (p : pending) (acc : regex) :
  ready p -> started items p ->
  exists items',
    re_step d (SetBody neg items p, acc) "]"
    = Some (Top (Some (InSet neg items')), acc).
Proof.
  intros Hp Hs. destruct p; try contradiction; simpl.
  - destruct Hs as [Hs|Hs]; [|congruence].
    unfold set_this. destruct items; [congruence|]. simpl. eauto.
  - unfold set_this. rewrite length_app. simpl.
    rewrite Nat.add_1_r. simpl. eauto.
  - eauto.
Qed.

Lemma in_set_close (d neg : bool) (acc : regex) (o : option (pstate * regex)) :
  in_set neg acc o ->
  at_top (match o with Some st => re_run d st (L "]") | None => None end).
Proof.
  destruct o as [[[ | | | neg' items p] acc']|]; simpl; try contradiction; auto.
  intros (-> & -> & Hp & Hs).
  destruct (step_close d neg items p acc Hp Hs) as [items' E].
  simpl in E. rewrite E. exact I.
Qed.

Lemma set_open_run (d : bool) (acc : regex) (c : ascii) (s : str) :
  c <> "^" ->
  re_run d (SetOpen, acc) (c :: s) = re_run d (SetBody false [] PNone, acc) (c :: s).
Proof.
  intros H. simpl. apply Ascii.eqb_neq in H. rewrite H. reflexivity.
Qed.

Lemma class_text_bang (c1 : str) : class_text ("!" :: c1) = "^" :: dbl c1.
Proof. reflexivity. Qed.

Lemma class_text_caret (c1 : str) : class_text ("^" :: c1) = "\" :: "^" :: dbl c1.
Proof. reflexivity. Qed.

Lemma class_text_other (x : ascii) (c1 : str) :
  x <> "!" -> x <> "^" -> class_text (x :: c1) = dbl (x :: c1).
Proof.
  intros H1 H2. unfold class_text. rewrite dbl_cons.
  destruct (Ascii.eqb_spec x "\") as [->|Hb]; [reflexivity|].
  simpl. apply Ascii.eqb_neq in H1, H2. rewrite H1, H2. reflexivity.
Qed.

Lemma dbl_head (x : ascii) (c1 : str) :
  x <> "^" -> exists y s, dbl (x :: c1) = y :: s /\ y <> "^".
Proof.
  intros H. rewrite dbl_cons. destruct (Ascii.eqb_spec x "\") as [->|Hb].
  - eexists _, _. split; [reflexivity | discriminate].
  - eexists _, _. split; [reflexivity | assumption].
Qed.

(** A group written by the translator is read to its end or rejected. *)
Lemma run_group (d : bool) (last : option atom) (acc : regex) (content : str) :
  group_content content ->
  at_top (re_run d (Top last, acc) (L "[" ++ class_text content ++ L "]")).
Proof.
  intros (Hne & Hbang & Hno).
  change (re_run d (Top last, acc) (L "[" ++ class_text content ++ L "]"))
    with (re_run d (SetOpen, flush last acc) (class_text content ++ L "]")).
  rewrite re_run_app.
  destruct content as [|x c1]; [congruence|].
  destruct (Ascii.eqb_spec x "!") as [->|Hx].
  - rewrite class_text_bang.
    change (re_run d (SetOpen, flush last acc) ("^" :: dbl c1))
      with (re_run d (SetBody true [] PNone, flush last acc) (dbl c1)).
    apply in_set_close with (neg := true) (acc := flush last acc).
    apply run_set_body; [congruence | exact Hno].
  - rewrite (skip_bang_neq x c1 Hx) in Hno.
    destruct (Ascii.eqb_spec x "^") as [->|Hc].
    + rewrite class_text_caret.
      change (re_run d (SetOpen, flush last acc) ("\" :: "^" :: dbl c1))
        with (re_run d (SetBody false [] (PHave "^"), flush last acc) (dbl c1)).
      apply in_set_close with (neg := false) (acc := flush last acc).
      rewrite skip_first_neq in Hno by discriminate.
      apply run_members; simpl; auto.
      * intros Hin. apply Hno. right. assumption.
      * right. right. discriminate.
    + rewrite (class_text_other x c1 Hx Hc).
      destruct (dbl_head x c1 Hc) as (y & s & E & Hy).
      rewrite E, (set_open_run d _ y s Hy), <- E.
      apply in_set_close with (neg := false) (acc := flush last acc).
      apply run_set_body; [discriminate | exact Hno].
Qed.

(** ** What the translator writes is read back piece by piece *)

Lemma chunk_at_top (d : bool) (h : host) (chunk : str) (last : option atom)
  (acc : regex) :
  escape_ok h -> chunk_of h chunk ->
  at_top (re_run d (Top last, acc) chunk).
Proof.
  intros Hh [ | | | content Hg | c].
  - rewrite run_dot_star. exact I.
  - rewrite run_dot. exact I.
  - rewrite run_bracket_literal. exact I.
  - apply run_group. assumption.
  - rewrite (run_escaped d h c last acc Hh). exact I.
Qed.

Lemma at_top_app (d : bool) (h : host) (res chunk : str) :
  escape_ok h -> chunk_of h chunk ->
  at_top (re_run d re_start res) ->
  at_top (re_run d re_start (res ++ chunk)).
Proof.
  intros Hh Hc Ht. rewrite re_run_app.
  destruct (re_run d re_start res) as [[[last| | | ] acc]|];
    simpl in Ht; try contradiction; auto.
  apply (chunk_at_top d h); assumption.
Qed.

Lemma loop_at_top (d : bool) (h : host) (pat : str) :
  escape_ok h ->
  forall fuel i res out,
    translate_loop fuel h pat i res = Ok out ->
    at_top (re_run d re_start res) ->
    at_top (re_run d re_start out).
Proof.
  intros Hh. induction fuel as [|fuel IH]; intros i res out; simpl.
  - destruct (Nat.ltb i (List.length pat)); [discriminate|].
    intros E. injection E as <-. auto.
  - destruct (Nat.ltb i (List.length pat)) eqn:E.
    + apply Nat.ltb_lt in E.
      destruct (body_progress h pat i res E) as (i' & chunk & Hb & _ & Hc).
      rewrite Hb. simpl. intros Hl Ht.
      apply (IH _ _ _ Hl). apply (at_top_app d h); assumption.
    + intros E'. injection E' as <-. auto.
Qed.

(** The compiled form of a pattern is the reading of the translated text
    alone, followed by the end anchor. *)
Lemma compile_pattern_shape (h : host) (pat : str) (r : regex) :
  escape_ok h ->
  _compile_pattern h pat = Ok r ->
  exists res body,
    translate_loop (List.length pat) h pat 0 [] = Ok res /\
    re_parse true res = Ok body /\ r = body ++ [AtEnd].
Proof.
  intros Hh. unfold _compile_pattern, translate, translate_fuel.
  destruct (translate_loop (List.length pat) h pat 0 []) as [res|e] eqn:Hl;
    [|discriminate].
  simpl bind.
  change (re_compile (L "(?ms)" ++ res ++ L "\Z"))
    with (re_parse true (res ++ L "\Z")).
  pose proof (loop_at_top true h pat Hh _ _ _ _ Hl I) as Ht.
  unfold re_parse. rewrite re_run_app.
  destruct (re_run true re_start res) as [[[last| | | ] acc]|] eqn:Hr;
    simpl in Ht; try contradiction; try discriminate.
  rewrite run_end_anchor. simpl. intros E. injection E as <-.
  exists res, (flush last acc). unfold re_parse. rewrite Hr. auto.
Qed.

(** ** The engine: matching *)

Lemma re_match_star (a : atom) (r : regex) (s : str) :
  re_match (Star a :: r) s
  = re_match r s
    || match s with
       | c :: s' => atom_ok a c && re_match (Star a :: r) s'
       | [] => false
       end.
Proof. destruct s; reflexivity. Qed.

Lemma re_fullmatch_star (a : atom) (r : regex) (s : str) :
  re_fullmatch (Star a :: r) s
  = re_fullmatch r s
    || match s with
       | c :: s' => atom_ok a c && re_fullmatch (Star a :: r) s'
       | [] => false
       end.
Proof. destruct s; reflexivity. Qed.

(** Behind an end anchor, a match at the start is a match of the whole
    string. *)
Lemma match_anchored (body : regex) :
  forall s, re_match (body ++ [AtEnd]) s = re_fullmatch (body ++ [AtEnd]) s.
Proof.
  induction body as [|n body IH]; intros s.
  - destruct s; reflexivity.
  - destruct n as [a|a|].
    + destruct s as [|c s]; simpl; [reflexivity|]. rewrite IH. reflexivity.
    + change ((Star a :: body) ++ [AtEnd]) with (Star a :: (body ++ [AtEnd])).
      induction s as [|c s IHs].
      * rewrite re_match_star, re_fullmatch_star, IH. reflexivity.
      * rewrite re_match_star, re_fullmatch_star, IH, IHs. reflexivity.
    + destruct s as [|c s]; simpl; [apply IH | reflexivity].
Qed.

(** The end anchor adds nothing to a match of the whole string. *)
Lemma fullmatch_anchor (body : regex) :
  forall s, re_fullmatch (body ++ [AtEnd]) s = re_fullmatch body s.
Proof.
  induction body as [|n body IH]; intros s.
  - destruct s; reflexivity.
  - destruct n as [a|a|].
    + destruct s as [|c s]; simpl; [reflexivity|]. rewrite IH. reflexivity.
    + change ((Star a :: body) ++ [AtEnd]) with (Star a :: (body ++ [AtEnd])).
      induction s as [|c s IHs].
      * rewrite !re_fullmatch_star, IH. reflexivity.
      * rewrite (re_fullmatch_star a (body ++ [AtEnd])), (re_fullmatch_star a body),
          IH, IHs. reflexivity.
    + destruct s as [|c s]; simpl; [apply IH | reflexivity].
Qed.

(** ** Stepping the loop *)

Lemma loop_step (fuel : nat) (h : host) (pat : str) (i : nat) (res : str) :
  i < List.length pat ->
  translate_loop (S fuel) h pat i res
  = (st <- translate_body h pat i res ;;
     translate_loop fuel h pat (fst st) (snd st)).
Proof.
  intros H. simpl. apply Nat.ltb_lt in H. rewrite H. reflexivity.
Qed.

Lemma loop_done (fuel : nat) (h : host) (pat : str) (i : nat) (res : str) :
  List.length pat <= i -> translate_loop fuel h pat i res = Ok res.
Proof.
  intros H. apply Nat.ltb_ge in H. destruct fuel; simpl; rewrite H; reflexivity.
Qed.

(** ** Patterns without wildcards *)

Lemma loop_ordinary (h : host) (pat : str) :
  forall fuel i res,
    forallb ordinary (skipn i pat) = true ->
    List.length pat <= i + fuel ->
    translate_loop fuel h pat i res
    = Ok (res ++ flat_map (escape_char h) (skipn i pat)).
Proof.
  induction fuel as [|fuel IH]; intros i res Ho Hf.
  - rewrite loop_done by lia. rewrite skipn_all2 by lia.
    simpl. rewrite app_nil_r. reflexivity.
  - destruct (Nat.lt_ge_cases i (List.length pat)) as [Hi|Hi].
    + rewrite loop_step by assumption.
      destruct (nth_error pat i) as [c|] eqn:Hc;
        [| apply nth_error_None in Hc; lia].
      rewrite (skipn_nth_error pat i c Hc) in Ho |- *.
      simpl in Ho. apply andb_true_iff in Ho. destruct Ho as [Hoc Ho].
      rewrite (body_ordinary h pat i res c Hc Hoc). simpl.
      rewrite IH by (assumption || lia).
      rewrite <- app_assoc. reflexivity.
    + rewrite loop_done by lia. rewrite skipn_all2 by lia.
      simpl. rewrite app_nil_r. reflexivity.
Qed.

Lemma run_literals (d : bool) (h : host) :
  escape_ok h ->
  forall (P : str) (last : option atom) (acc : regex),
    exists last' acc',
      re_run d (Top last, acc) (flat_map (escape_char h) P)
      = Some (Top last', acc')
      /\ flush last' acc' = flush last acc ++ map lit P.
Proof.
  intros Hh. induction P as [|c P IH]; intros last acc.
  - exists last, acc. simpl. rewrite app_nil_r. auto.
  - simpl flat_map. rewrite re_run_app, (run_escaped d h c last acc Hh).
    destruct (IH (Some (Lit c)) (flush last acc)) as (last' & acc' & Hr & Hf).
    exists last', acc'. split; [exact Hr|].
    rewrite Hf. simpl. rewrite <- app_assoc. reflexivity.
Qed.

(** A pattern of ordinary characters compiles to its own characters, one
    literal each, and the end anchor. *)
Lemma literal_compile (h : host) (P : str) :
  escape_ok h -> forallb ordinary P = true ->
  _compile_pattern h P = Ok (map lit P ++ [AtEnd]).
Proof.
  intros Hh Ho. unfold _compile_pattern, translate, translate_fuel.
  rewrite loop_ordinary by (simpl; assumption || lia). simpl skipn. simpl bind.
  change (re_compile (L "(?ms)" ++ flat_map (escape_char h) P ++ L "\Z"))
    with (re_parse true (flat_map (escape_char h) P ++ L "\Z")).
  unfold re_parse. rewrite re_run_app.
  destruct (run_literals true h Hh P None []) as (last & acc & Hr & Hf).
  change (re_run true re_start (flat_map (escape_char h) P) = Some (Top last, acc))
    in Hr.
  rewrite Hr, run_end_anchor. rewrite Hf. reflexivity.
Qed.

Lemma match_literals (P : str) :
  forall s, re_match (map lit P ++ [AtEnd]) s = true <-> s = P.
Proof.
  induction P as [|c P IH]; intros s.
  - destruct s; simpl; split; congruence.
  - destruct s as [|x s]; simpl.
    + split; congruence.
    + rewrite andb_true_iff, IH. split.
      * intros [Hx ->]. apply Ascii.eqb_eq in Hx. congruence.
      * intros E. injection E as -> ->. split; [apply Ascii.eqb_refl | reflexivity].
Qed.

(** A pattern of ordinary characters matches itself and nothing else. *)
Lemma literal_fnmatchcase (h : host) (name P : str) :
  escape_ok h -> forallb ordinary P = true ->
  exists b, fnmatchcase h name P = Ok b /\ (b = true <-> name = P).
Proof.
  intros Hh Ho. unfold fnmatchcase. rewrite (literal_compile h P Hh Ho).
  simpl. eexists. split; [reflexivity|]. apply match_literals.
Qed.

(** ** Groups without ranges *)

Lemma run_plain_members (d neg : bool) (acc : regex) (m : str) :
  ~ In "]" m -> ~ In "-" m ->
  forall items y,
    re_run d (SetBody neg items (PHave y), acc) (dbl m ++ L "]")
    = Some (Top (Some (InSet neg (items ++ map SLit (y :: m)))), acc).
Proof.
  induction m as [|x m IH]; intros Hc Hd items y.
  - simpl. unfold set_this. rewrite length_app. simpl.
    rewrite Nat.add_1_r. reflexivity.
  - assert (Hx : (x =? "]") = false)
      by (apply Ascii.eqb_neq; intros ->; apply Hc; left; reflexivity).
    assert (Hx' : (x =? "-") = false)
      by (apply Ascii.eqb_neq; intros ->; apply Hd; left; reflexivity).
    assert (Hc' : ~ In "]" m) by (intros H; apply Hc; right; assumption).
    assert (Hd' : ~ In "-" m) by (intros H; apply Hd; right; assumption).
    rewrite dbl_cons. destruct (Ascii.eqb_spec x "\") as [->|Hb].
    + change (re_run d (SetBody neg items (PHave y), acc) ((L "\\" ++ dbl m) ++ L "]"))
        with (re_run d (SetBody neg (items ++ [SLit y]) (PHave "\"), acc) (dbl m ++ L "]")).
      rewrite (IH Hc' Hd'). rewrite <- app_assoc. reflexivity.
    + apply Ascii.eqb_neq in Hb. simpl. rewrite Hx'. unfold set_this.
      rewrite Hx, Hb. simpl. rewrite (IH Hc' Hd'). rewrite <- app_assoc. reflexivity.
Qed.

Lemma run_plain_body (d neg : bool) (acc : regex) (m : str) :
  m <> [] -> ~ In "]" (skip_first m) -> ~ In "-" m ->
  re_run d (SetBody neg [] PNone, acc) (dbl m ++ L "]")
  = Some (Top (Some (InSet neg (map SLit m))), acc).
Proof.
  intros Hne Hc Hd. destruct m as [|x m]; [congruence|].
  assert (Hd' : ~ In "-" m) by (intros H; apply Hd; right; assumption).
  destruct (Ascii.eqb_spec x "]") as [->|Hx].
  - change (skip_first ("]" :: m)) with m in Hc.
    rewrite dbl_cons_neq by discriminate.
    change (re_run d (SetBody neg [] PNone, acc) (("]" :: dbl m) ++ L "]"))
      with (re_run d (SetBody neg [] (PHave "]"), acc) (dbl m ++ L "]")).
    rewrite (run_plain_members d neg acc m Hc Hd'). reflexivity.
  - rewrite (skip_first_neq x m Hx) in Hc.
    assert (Hc' : ~ In "]" m) by (intros H; apply Hc; right; assumption).
    rewrite dbl_cons. destruct (Ascii.eqb_spec x "\") as [->|Hb].
    + change (re_run d (SetBody neg [] PNone, acc) ((L "\\" ++ dbl m) ++ L "]"))
        with (re_run d (SetBody neg [] (PHave "\"), acc) (dbl m ++ L "]")).
      rewrite (run_plain_members d neg acc m Hc' Hd'). reflexivity.
    + apply Ascii.eqb_neq in Hx, Hb. simpl. unfold set_this.
      rewrite Hx, Hb. simpl.
      rewrite (run_plain_members d neg acc m Hc' Hd'). reflexivity.
Qed.

Lemma run_plain_group (d : bool) (last : option atom) (acc : regex) (content : str) :
  group_content content -> ~ In "-" content ->
  re_run d (Top last, acc) (L "[" ++ class_text content ++ L "]")
  = Some (Top (Some (InSet (negated content) (map SLit (members content)))),
          flush last acc).
Proof.
  intros (Hne & Hbang & Hno) Hd.
  change (re_run d (Top last, acc) (L "[" ++ class_text content ++ L "]"))
    with (re_run d (SetOpen, flush last acc) (class_text content ++ L "]")).
  destruct content as [|x c1]; [congruence|].
  assert (Hd' : ~ In "-" c1) by (intros H; apply Hd; right; assumption).
  unfold members, negated.
  destruct (Ascii.eqb_spec x "!") as [->|Hx].
  - rewrite class_text_bang. change (skip_bang ("!" :: c1)) with c1 in Hno |- *.
    change (re_run d (SetOpen, flush last acc) (("^" :: dbl c1) ++ L "]"))
      with (re_run d (SetBody true [] PNone, flush last acc) (dbl c1 ++ L "]")).
    apply run_plain_body; auto. congruence.
  - rewrite (skip_bang_neq x c1 Hx) in Hno |- *.
    destruct (Ascii.eqb_spec x "^") as [->|Hc].
    + rewrite class_text_caret.
      change (re_run d (SetOpen, flush last acc) (("\" :: "^" :: dbl c1) ++ L "]"))
        with (re_run d (SetBody false [] (PHave "^"), flush last acc) (dbl c1 ++ L "]")).
      rewrite skip_first_neq in Hno by discriminate.
      rewrite run_plain_members; auto.
      intros Hin. apply Hno. right. assumption.
    + rewrite (class_text_other x c1 Hx Hc).
      destruct (dbl_head x c1 Hc) as (y & s & E & Hy).
      rewrite E. change ((y :: s) ++ L "]") with (y :: (s ++ L "]")).
      rewrite (set_open_run d _ y (s ++ L "]") Hy).
      change (y :: (s ++ L "]")) with ((y :: s) ++ L "]"). rewrite <- E.
      apply run_plain_body; auto.
Qed.

(** A pattern that is one group. *)
Lemma group_translate (h : host) (content : str) :
  group_content content ->
  translate h (L "[" ++ content ++ L "]")
  = Ok (L "(?ms)[" ++ class_text content ++ L "]\Z").
Proof.
  intros Hg. unfold translate, translate_fuel.
  assert (Hlen : List.length (L "[" ++ content ++ L "]") = S (S (List.length content))).
  { simpl. rewrite length_app. simpl. lia. }
  rewrite Hlen, loop_step by lia.
  rewrite (body_closed h (L "[" ++ content ++ L "]") 0 [] content []
             eq_refl eq_refl Hg).
  cbn [bind fst snd]. rewrite loop_done by lia.
  cbn [bind]. simpl. rewrite <- app_assoc. reflexivity.
Qed.

Lemma re_compile_flags (s : str) : re_compile (L "(?ms)" ++ s) = re_parse true s.
Proof. reflexivity. Qed.

Lemma re_parse_anchored (text : str) (last : option atom) (acc : regex) :
  re_run true re_start text = Some (Top last, acc) ->
  re_parse true (text ++ L "\Z") = Ok (flush last acc ++ [AtEnd]).
Proof.
  intros H. unfold re_parse. rewrite re_run_app, H, run_end_anchor. reflexivity.
Qed.

Lemma plain_group_compile (h : host) (content : str) :
  group_content content -> ~ In "-" content ->
  _compile_pattern h (L "[" ++ content ++ L "]")
  = Ok [One (InSet (negated content) (map SLit (members content))); AtEnd].
Proof.
  intros Hg Hd. unfold _compile_pattern. rewrite (group_translate h content Hg).
  cbn [bind].
  replace (L "(?ms)[" ++ class_text content ++ L "]\Z")
    with (L "(?ms)" ++ (L "[" ++ class_text content ++ L "]") ++ L "\Z")
    by (simpl; rewrite <- app_assoc; reflexivity).
  rewrite re_compile_flags.
  rewrite (re_parse_anchored _ _ _ (run_plain_group true None [] content Hg Hd)).
  reflexivity.
Qed.

Lemma in_literals (c : ascii) (m : str) :
  existsb (item_ok c) (map SLit m) = true <-> In c m.
Proof.
  induction m as [|x m IH]; simpl.
  - split; [discriminate | intros []].
  - rewrite orb_true_iff, IH. split.
    + intros [H|H]; [left; apply Ascii.eqb_eq in H; congruence | right; assumption].
    + intros [H|H]; [left; subst; apply Ascii.eqb_refl | right; assumption].
Qed.

Lemma match_one_set (neg : bool) (items : list set_item) (s : str) :
  re_match [One (InSet neg items); AtEnd] s = true
  <-> exists c, s = [c] /\ xorb neg (existsb (item_ok c) items) = true.
Proof.
  destruct s as [|c [|c' s]]; simpl.
  - split; [discriminate | intros (c & E & _); discriminate].
  - rewrite andb_true_r. split.
    + intros H. exists c. auto.
    + intros (c0 & E & H). injection E as <-. assumption.
  - rewrite andb_false_r. split; [discriminate | intros (c0 & E & _); discriminate].
Qed.

(** ** Hosts *)

Lemma uefi_escape_ok : escape_ok uefi_host.
Proof. discriminate. Qed.

Lemma posix_escape_ok : escape_ok posix_host.
Proof. intros _. apply _re_escape_literally. Qed.

Lemma nt_escape_ok : escape_ok nt_host.
Proof. intros _. apply _re_escape_literally. Qed.

Lemma nt_posix_nop : posix_nop nt_host.
Proof. discriminate. Qed.

Lemma escape_alnum (h : host) (c : ascii) :
  escape_ok h -> is_alnum c = true -> escape_char h c = [c].
Proof.
  intros Hh Ha. destruct (escape_char_cases h c Hh) as [[E _] | [_ E]];
    [assumption | congruence].
Qed.

Lemma escape_special (h : host) (c : ascii) :
  escape_ok h -> is_special c = true -> escape_char h c = ["\"; c].
Proof.
  intros Hesc Hs. revert Hesc. unfold escape_ok, escape_char.
  destruct (uefi_micropython h); intros Hesc.
  - rewrite _re_escape_char, Hs. reflexivity.
  - apply (Hesc eq_refl c). assumption.
Qed.

(** ** The loop of [filter] *)

Lemma filter_loop_filter (test : str -> bool) (names : list str) :
  filter_loop test names = List.filter test names.
Proof.
  unfold filter_loop.
  assert (G : forall acc,
             fold_left (fun result name =>
                          if test name then result ++ [name] else result)
                       names acc
             = acc ++ List.filter test names).
  { induction names as [|n names IH]; intros acc; simpl.
    - rewrite app_nil_r. reflexivity.
    - rewrite IH. destruct (test n); [|reflexivity].
      rewrite <- app_assoc. reflexivity. }
  apply G.
Qed.

Lemma ok_true (b : bool) : @Ok bool b = Ok true <-> b = true.
Proof. split; [intros H; injection H as H; exact H | intros ->; reflexivity]. Qed.

(** * The claims *)

(** C7. The translator is total.  Each iteration of the scan succeeds and
    moves the index strictly forward without passing the end of the
    pattern, in every branch; so for every pattern and host [translate]
    returns an expression, and no larger iteration bound changes it. *)
Theorem translate_total (h : host) (pat : str) :
  (forall i res,
      i < List.length pat ->
      exists i' res',
        translate_body h pat i res = Ok (i', res') /\
        i < i' <= List.length pat) /\
  (exists e, translate h pat = Ok e) /\
  (forall fuel,
      List.length pat <= fuel -> translate_fuel fuel h pat = translate h pat).
Proof.
  repeat split.
  - intros i res Hi.
    destruct (body_progress h pat i res Hi) as (i' & chunk & Hb & Hi' & _).
    eauto.
  - apply translate_total_aux.
  - intros fuel Hf. unfold translate, translate_fuel.
    rewrite (translate_loop_fuel h pat (List.length pat) fuel); auto.
Qed.

Lemma translate_total_witness :
  (exists i' res',
      translate_body uefi_host (L "[a]b[") 0 [] = Ok (i', res') /\
      0 < i' <= 5) /\
  translate_fuel 9 uefi_host (L "[a]b[") = translate uefi_host (L "[a]b[").
Proof.
  split.
  - apply (proj1 (translate_total uefi_host (L "[a]b[")) 0 []). simpl. lia.
  - apply (proj2 (proj2 (translate_total uefi_host (L "[a]b["))) 9). simpl. lia.
Defined.

(** C3. A [[] that no []] closes (the scan passing an optional leading [!]
    and an optional first member []]) does not make the translator fail: the
    iteration writes the escaped literal and the translation returns.  The
    expression for the pattern [[] matches the string [[] and nothing
    else. *)
Theorem unterminated_bracket_literal (h : host) (pat : str) (i : nat) (res : str) :
  (nth_error pat i = Some "[" ->
   no_close (skipn (S i) pat) ->
   translate_body h pat i res = Ok (S i, res ++ L "\[")) /\
  (exists e, translate h pat = Ok e) /\
  translate h (L "[") = Ok (L "(?ms)\[\Z") /\
  (forall s, expr_matches (L "(?ms)\[\Z") s = Ok true <-> s = L "[").
Proof.
  split; [|split; [|split]].
  - intros Hc Hno. apply body_open; assumption.
  - apply translate_total_aux.
  - reflexivity.
  - intros s. unfold expr_matches.
    change (re_compile (L "(?ms)\[\Z")) with (@Ok regex (map lit (L "[") ++ [AtEnd])).
    cbn [bind]. rewrite ok_true. apply match_literals.
Qed.

Lemma unterminated_bracket_literal_witness :
  translate_body uefi_host (L "a[!]") 1 (L "a") = Ok (2, L "a\[").
Proof.
  apply (proj1 (unterminated_bracket_literal uefi_host (L "a[!]") 1 (L "a"))).
  - reflexivity.
  - unfold no_close. simpl. intros [].
Defined.

Lemma match_star_any (t : str) : re_match [Star (Any true); AtEnd] t = true.
Proof.
  induction t as [|c t IH]; rewrite re_match_star; [reflexivity|].
  rewrite IH. reflexivity.
Qed.

(** C10. After an unterminated [[] has been written as an escaped literal
    the scan resumes at the very next character, so what follows keeps its
    meaning: the expression for [[a*] matches exactly the strings that
    start with [[a]. *)
Theorem unterminated_bracket_resumes (h : host) :
  (forall fuel pat i res,
      nth_error pat i = Some "[" ->
      no_close (skipn (S i) pat) ->
      translate_loop (S fuel) h pat i res
      = translate_loop fuel h pat (S i) (res ++ L "\[")) /\
  (forall s, expr_matches (L "(?ms)\[a.*\Z") s = Ok true
             <-> exists t, s = L "[a" ++ t) /\
  (escape_ok h ->
   translate h (L "[a*") = Ok (L "(?ms)\[a.*\Z") /\
   fnmatchcase h (L "[abc") (L "[a*") = Ok true /\
   fnmatchcase h (L "a") (L "[a*") = Ok false).
Proof.
  assert (Ht : escape_ok h -> translate h (L "[a*") = Ok (L "(?ms)\[a.*\Z")).
  { intros Hh. unfold translate, translate_fuel. simpl List.length.
    rewrite loop_step by (simpl; lia).
    rewrite body_open by (reflexivity || (unfold no_close; simpl; intuition discriminate)).
    cbn [bind fst snd]. rewrite loop_step by (simpl; lia).
    rewrite (body_ordinary h _ 1 _ "a") by reflexivity.
    cbn [bind fst snd]. rewrite loop_step by (simpl; lia).
    rewrite body_star by reflexivity.
    cbn [bind fst snd]. rewrite loop_done by (simpl; lia).
    rewrite (escape_alnum h "a" Hh eq_refl). reflexivity. }
  split; [|split].
  - intros fuel pat i res Hc Hno.
    assert (Hi : i < List.length pat) by (apply nth_error_Some; congruence).
    rewrite loop_step by assumption.
    rewrite body_open by assumption. reflexivity.
  - intros s. unfold expr_matches.
    change (re_compile (L "(?ms)\[a.*\Z"))
      with (@Ok regex [lit "["; lit "a"; Star (Any true); AtEnd]).
    cbn [bind]. rewrite ok_true. split.
    + destruct s as [|c1 [|c2 t]]; simpl; try discriminate.
      * rewrite andb_false_r. discriminate.
      * intros H. apply andb_true_iff in H. destruct H as [H1 H].
        apply andb_true_iff in H. destruct H as [H2 _].
        apply Ascii.eqb_eq in H1, H2. subst. exists t. reflexivity.
    + intros [t ->].
      change (re_match [Star (Any true); AtEnd] t = true).
      apply match_star_any.
  - intros Hh. split; [exact (Ht Hh)|].
    unfold fnmatchcase, _compile_pattern. rewrite (Ht Hh). split; reflexivity.
Qed.

Lemma unterminated_bracket_resumes_witness :
  translate posix_host (L "[a*") = Ok (L "(?ms)\[a.*\Z") /\
  fnmatchcase posix_host (L "[abc") (L "[a*") = Ok true /\
  fnmatchcase posix_host (L "a") (L "[a*") = Ok false.
Proof.
  exact (proj2 (proj2 (unterminated_bracket_resumes posix_host)) posix_escape_ok).
Defined.

(** C4. The expression for [*] matches every string, the empty one and
    those with newlines included; the expression for [?] matches exactly the
    strings of one character, a newline among them, so neither the empty
    string nor any string of two characters. *)
Theorem star_and_question (h : host) :
  translate h (L "*") = Ok (L "(?ms).*\Z") /\
  (forall s, expr_matches (L "(?ms).*\Z") s = Ok true) /\
  expr_matches (L "(?ms).*\Z") [] = Ok true /\
  expr_matches (L "(?ms).*\Z") ("a" :: newline :: L "b") = Ok true /\
  translate h (L "?") = Ok (L "(?ms).\Z") /\
  (forall s, expr_matches (L "(?ms).\Z") s = Ok true <-> exists c, s = [c]) /\
  expr_matches (L "(?ms).\Z") [newline] = Ok true /\
  expr_matches (L "(?ms).\Z") [] = Ok false /\
  (forall c1 c2, expr_matches (L "(?ms).\Z") [c1; c2] = Ok false).
Proof.
  assert (Hs : forall s, expr_matches (L "(?ms).*\Z") s = Ok true).
  { intros s. unfold expr_matches.
    change (re_compile (L "(?ms).*\Z")) with (@Ok regex [Star (Any true); AtEnd]).
    cbn [bind]. rewrite match_star_any. reflexivity. }
  repeat split; auto.
  - destruct s as [|c [|c' s]]; intros H; try discriminate H; eauto.
  - intros [c ->]. reflexivity.
Qed.

(** On a compiled pattern a match at the start is a match of the whole
    name. *)
Lemma compiled_match_whole (h : host) (pat : str) (r : regex) (name : str) :
  escape_ok h -> _compile_pattern h pat = Ok r ->
  re_match r name = re_fullmatch r name.
Proof.
  intros Hh Hc.
  destruct (compile_pattern_shape h pat r Hh Hc) as (res & body & _ & _ & ->).
  apply match_anchored.
Qed.

(** C5. [fnmatchcase] answers by a match of the whole name: its result is
    that of matching the compiled expression from the first character of the
    name to its last, so it is true exactly when the pattern compiles and
    the whole name matches.  The empty pattern matches the empty name and
    no other. *)
Theorem fnmatchcase_whole_string (h : host) (name pat : str) :
  (escape_ok h ->
   fnmatchcase h name pat
   = (r <- _compile_pattern h pat ;; Ok (re_fullmatch r name))) /\
  (escape_ok h ->
   (fnmatchcase h name pat = Ok true
    <-> exists r, _compile_pattern h pat = Ok r /\ re_fullmatch r name = true)) /\
  fnmatchcase h [] [] = Ok true /\
  fnmatchcase h (L "x") [] = Ok false /\
  (fnmatchcase h name [] = Ok true <-> name = []).
Proof.
  assert (He : escape_ok h ->
               fnmatchcase h name pat
               = (r <- _compile_pattern h pat ;; Ok (re_fullmatch r name))).
  { intros Hh. unfold fnmatchcase.
    destruct (_compile_pattern h pat) as [r|e] eqn:Hc; [|reflexivity].
    cbn [bind]. rewrite (compiled_match_whole h pat r name Hh Hc). reflexivity. }
  split; [exact He|]. split; [|split; [|split]].
  - intros Hh. rewrite (He Hh).
    destruct (_compile_pattern h pat) as [r|e]; cbn [bind].
    + rewrite ok_true. split.
      * intros H. exists r. auto.
      * intros (r' & E & H). injection E as <-. exact H.
    + split; [discriminate | intros (r' & E & _); discriminate].
  - reflexivity.
  - reflexivity.
  - destruct name as [|c name].
    + split; reflexivity.
    + split; discriminate.
Qed.

Lemma fnmatchcase_whole_string_witness :
  fnmatchcase posix_host (L "a.py") (L "*.py")
  = (r <- _compile_pattern posix_host (L "*.py") ;; Ok (re_fullmatch r (L "a.py"))) /\
  fnmatchcase posix_host (L "a.py") (L "*.py") = Ok true.
Proof.
  split.
  - apply (proj1 (fnmatchcase_whole_string posix_host (L "a.py") (L "*.py"))).
    exact posix_escape_ok.
  - apply (proj1 (proj2 (fnmatchcase_whole_string posix_host (L "a.py") (L "*.py")))).
    + exact posix_escape_ok.
    + eexists. split; reflexivity.
Defined.

Lemma space_is_special (c : ascii) : is_space c = true -> is_special c = true.
Proof. each_ascii c; vm_compute; congruence. Qed.

(** C6. A pattern without [*], [?] and [[] matches itself.  Each of its
    characters is written escaped by the iteration that reads it: behind a
    backslash when it is a regular-expression metacharacter or whitespace,
    as it is when it is alphanumeric, and in either case the engine reads the
    escaped text back as that one literal character. *)
Theorem literal_pattern_matches_itself (h : host) (P : str) :
  escape_ok h ->
  (forallb ordinary P = true -> fnmatchcase h P P = Ok true) /\
  (forall i res c,
      nth_error P i = Some c -> ordinary c = true ->
      translate_body h P i res = Ok (S i, res ++ escape_char h c)) /\
  (forall c, re_meta c = true \/ is_space c = true ->
             escape_char h c = ["\"; c]) /\
  (forall c, is_alnum c = true -> escape_char h c = [c]) /\
  (forall c, re_parse true (escape_char h c) = Ok [One (Lit c)]).
Proof.
  intros Hh. split; [|split; [|split; [|split]]].
  - intros Ho. destruct (literal_fnmatchcase h P P Hh Ho) as (b & E & Hb).
    rewrite E. f_equal. apply Hb. reflexivity.
  - intros i res c Hc Hoc. apply body_ordinary; assumption.
  - intros c [Hm|Hs]; apply escape_special; auto.
    + apply meta_is_special. assumption.
    + apply space_is_special. assumption.
  - intros c Ha. apply escape_alnum; assumption.
  - intros c. unfold re_parse, re_start.
    rewrite (run_escaped true h c None [] Hh). reflexivity.
Qed.

Lemma literal_pattern_matches_itself_witness :
  fnmatchcase uefi_host (L "a+b (c).txt") (L "a+b (c).txt") = Ok true.
Proof.
  apply (proj1 (literal_pattern_matches_itself uefi_host (L "a+b (c).txt")
                  uefi_escape_ok)).
  reflexivity.
Defined.

(** ** Groups as patterns *)

Lemma plain_group_match (h : host) (content name : str) :
  group_content content -> ~ In "-" content ->
  (fnmatchcase h name (L "[" ++ content ++ L "]") = Ok true
   <-> exists c, name = [c] /\
                 if negated content then ~ In c (members content)
                 else In c (members content)).
Proof.
  intros Hg Hd. unfold fnmatchcase.
  rewrite (plain_group_compile h content Hg Hd). cbn [bind].
  rewrite ok_true, match_one_set.
  split; intros (c & -> & H); exists c; (split; [reflexivity|]).
  - destruct (negated content); simpl in H.
    + intros Hin. apply in_literals in Hin. rewrite Hin in H. discriminate.
    + apply in_literals. assumption.
  - destruct (negated content); simpl.
    + destruct (existsb (item_ok c) (map SLit (members content))) eqn:E;
        [|reflexivity].
      apply in_literals in E. contradiction.
    + apply in_literals. assumption.
Qed.

Lemma class_text_shape (content : str) :
  class_text content
  = match content with
    | [] => []
    | c :: r =>
        if (c =? "!") then "^" :: dbl r
        else if (c =? "^") then "\" :: "^" :: dbl r
        else dbl content
    end.
Proof.
  destruct content as [|c r]; [reflexivity|].
  destruct (Ascii.eqb_spec c "!") as [->|H1]; [reflexivity|].
  destruct (Ascii.eqb_spec c "^") as [->|H2]; [reflexivity|].
  apply class_text_other; assumption.
Qed.

Lemma members_plain (content : str) :
  negated content = false -> members content = content.
Proof.
  destruct content as [|c r]; [reflexivity|]. simpl. unfold members. simpl.
  intros ->. reflexivity.
Qed.

(** C1, as the code has it.  A group whose content neither starts with [!]
    nor holds a [-] is written as a set that matches exactly the strings of
    one character listed in it: so for [[abc]], and for [[]]] with its
    leading []]; wherever a group stands, the text between the brackets is
    written with every backslash doubled (after which a leading [!] is
    turned into [^] and a leading [^] is escaped), and a backslash among
    the members is matched as itself. *)
Theorem bracket_class_members (h : host) (content : str) :
  (group_content content ->
   negated content = false ->
   ~ In "-" content ->
   translate h (L "[" ++ content ++ L "]")
   = Ok (L "(?ms)[" ++ class_text content ++ L "]\Z") /\
   (forall name,
       fnmatchcase h name (L "[" ++ content ++ L "]") = Ok true
       <-> exists c, name = [c] /\ In c content)) /\
  (translate h (L "[abc]") = Ok (L "(?ms)[abc]\Z") /\
   translate h (L "[]]") = Ok (L "(?ms)[]]\Z") /\
   fnmatchcase h (L "a") (L "[abc]") = Ok true /\
   fnmatchcase h (L "b") (L "[abc]") = Ok true /\
   fnmatchcase h (L "c") (L "[abc]") = Ok true /\
   fnmatchcase h (L "d") (L "[abc]") = Ok false /\
   fnmatchcase h (L "ab") (L "[abc]") = Ok false /\
   fnmatchcase h (L "]") (L "[]]") = Ok true) /\
  (forall pat i res content' tail,
      nth_error pat i = Some "[" ->
      skipn (S i) pat = content' ++ "]" :: tail ->
      group_content content' ->
      translate_body h pat i res
      = Ok (S (S i + List.length content'),
            res ++ L "[" ++ class_text content' ++ L "]")) /\
  (forall content',
      class_text content'
      = match content' with
        | [] => []
        | c :: r =>
            if (c =? "!") then "^" :: dbl r
            else if (c =? "^") then "\" :: "^" :: dbl r
            else dbl content'
        end) /\
  fnmatchcase h (L "\") (L "[a\]") = Ok true.
Proof.
  split; [|split; [|split; [|split]]].
  - intros Hg Hn Hd. split.
    + apply group_translate. assumption.
    + intros name. rewrite (plain_group_match h content name Hg Hd), Hn.
      rewrite (members_plain content Hn). reflexivity.
  - repeat split.
  - intros pat i res content' tail. apply body_closed.
  - apply class_text_shape.
  - reflexivity.
Qed.

Lemma bracket_class_members_witness :
  translate uefi_host (L "[]a\^]") = Ok (L "(?ms)[]a\\^]\Z") /\
  fnmatchcase uefi_host (L "^") (L "[]a\^]") = Ok true.
Proof.
  assert (Hg : group_content (L "]a\^")).
  { unfold group_content. simpl. repeat split; try discriminate.
    intuition discriminate. }
  assert (Hd : ~ In "-" (L "]a\^")) by (simpl; intuition discriminate).
  destruct (proj1 (bracket_class_members uefi_host (L "]a\^")) Hg eq_refl Hd)
    as [Ht Hm].
  split; [exact Ht|].
  apply Hm. exists "^". split; [reflexivity | simpl; auto].
Defined.

(** C1 as it is stated fails on a group that starts with [!], which
    matches the characters that are not listed, and on a group with a range,
    which matches characters between its ends and not the [-] it lists. *)
Lemma bracket_class_counterexample :
  ~ (forall content name,
        group_content content -> ~ In "-" content ->
        (fnmatchcase uefi_host name (L "[" ++ content ++ L "]") = Ok true
         <-> exists c, name = [c] /\ In c content)) /\
  ~ (forall content name,
        group_content content -> negated content = false ->
        (fnmatchcase uefi_host name (L "[" ++ content ++ L "]") = Ok true
         <-> exists c, name = [c] /\ In c content)).
Proof.
  split; intros H.
  - assert (Hg : group_content (L "!a")).
    { unfold group_content. simpl. repeat split; try discriminate.
      intuition discriminate. }
    assert (Hd : ~ In "-" (L "!a")) by (simpl; intuition discriminate).
    destruct (proj1 (H (L "!a") (L "b") Hg Hd) eq_refl) as (c & E & Hin).
    injection E as <-. simpl in Hin. intuition discriminate.
  - assert (Hg : group_content (L "a-c")).
    { unfold group_content. simpl. repeat split; try discriminate.
      intuition discriminate. }
    destruct (proj1 (H (L "a-c") (L "b") Hg eq_refl) eq_refl) as (c & E & Hin).
    injection E as <-. simpl in Hin. intuition discriminate.
Qed.

(** C2. In a group whose content starts with [!] the iteration writes [^]
    in its place, and the set is a negated one: the expression for
    [[!abc]] matches [d] and not [a], and a negated group without ranges
    matches exactly the strings of one character that is not listed.  In a
    group whose content starts with [^] the iteration writes a backslash
    before it, and the set matches the caret and is not negated. *)
Theorem bracket_negation (h : host) (pat : str) (i : nat) (res r tail : str) :
  (nth_error pat i = Some "[" ->
   skipn (S i) pat = ("!" :: r) ++ "]" :: tail ->
   group_content ("!" :: r) ->
   translate_body h pat i res
   = Ok (S (S i + List.length ("!" :: r)), res ++ L "[^" ++ dbl r ++ L "]")) /\
  (nth_error pat i = Some "[" ->
   skipn (S i) pat = ("^" :: r) ++ "]" :: tail ->
   group_content ("^" :: r) ->
   translate_body h pat i res
   = Ok (S (S i + List.length ("^" :: r)), res ++ L "[\^" ++ dbl r ++ L "]")) /\
  (translate h (L "[!abc]") = Ok (L "(?ms)[^abc]\Z") /\
   fnmatchcase h (L "d") (L "[!abc]") = Ok true /\
   fnmatchcase h (L "a") (L "[!abc]") = Ok false) /\
  (group_content ("!" :: r) -> ~ In "-" r ->
   forall name,
     fnmatchcase h name (L "[!" ++ r ++ L "]") = Ok true
     <-> exists c, name = [c] /\ ~ In c r) /\
  (translate h (L "[^a]") = Ok (L "(?ms)[\^a]\Z") /\
   fnmatchcase h (L "^") (L "[^a]") = Ok true /\
   fnmatchcase h (L "a") (L "[^a]") = Ok true /\
   fnmatchcase h (L "b") (L "[^a]") = Ok false).
Proof.
  split; [|split; [|split; [|split]]].
  - intros Hc Hs Hg. rewrite (body_closed h pat i res _ tail Hc Hs Hg).
    rewrite class_text_bang. reflexivity.
  - intros Hc Hs Hg. rewrite (body_closed h pat i res _ tail Hc Hs Hg).
    rewrite class_text_caret. reflexivity.
  - repeat split.
  - intros Hg Hd name.
    assert (Hd' : ~ In "-" ("!" :: r)) by (intros [H|H]; [discriminate | auto]).
    apply (plain_group_match h ("!" :: r) name Hg Hd').
  - repeat split.
Qed.

Lemma bracket_negation_witness :
  translate_body uefi_host (L "x[!ab]y") 1 (L "x") = Ok (6, L "x[^ab]") /\
  fnmatchcase uefi_host (L "c") (L "[!ab]") = Ok true.
Proof.
  assert (Hg : group_content (L "!ab")).
  { unfold group_content. simpl. repeat split; try discriminate.
    intuition discriminate. }
  split.
  - apply (proj1 (bracket_negation uefi_host (L "x[!ab]y") 1 (L "x") (L "ab") (L "y"))
             eq_refl eq_refl Hg).
  - apply (proj1 (proj2 (proj2 (proj2
             (bracket_negation uefi_host (L "x[!ab]y") 1 (L "x") (L "ab") (L "y")))))
             Hg).
    + simpl. intuition discriminate.
    + exists "c". split; [reflexivity | simpl; intuition discriminate].
Defined.

(** ** Case normalization *)

(** C8, as the code has it.  [fnmatch] is [fnmatchcase] on the normalized
    name and pattern; the two agree on every name and pattern that
    [normcase] leaves alone, so everywhere when it is the identity; and for
    a pattern that holds no [*], [?] or [[], before and after normalization,
    they differ exactly when name and pattern differ and have the same
    normal form. *)
Theorem fnmatch_normalizes (h : host) (name pat : str) :
  fnmatch h name pat = fnmatchcase h (normcase h name) (normcase h pat) /\
  ((forall s, normcase h s = s) -> fnmatch h name pat = fnmatchcase h name pat) /\
  (normcase h name = name -> normcase h pat = pat ->
   fnmatch h name pat = fnmatchcase h name pat) /\
  (escape_ok h ->
   forallb ordinary pat = true ->
   forallb ordinary (normcase h pat) = true ->
   (fnmatch h name pat <> fnmatchcase h name pat
    <-> name <> pat /\ normcase h name = normcase h pat)).
Proof.
  split; [reflexivity|]. split; [|split].
  - intros Hid. unfold fnmatch. rewrite !Hid. reflexivity.
  - intros Hn Hp. unfold fnmatch. rewrite Hn, Hp. reflexivity.
  - intros Hh Ho Ho'. unfold fnmatch.
    destruct (literal_fnmatchcase h name pat Hh Ho) as (b1 & E1 & H1).
    destruct (literal_fnmatchcase h (normcase h name) (normcase h pat) Hh Ho')
      as (b2 & E2 & H2).
    rewrite E1, E2. split.
    + intros Hne. destruct b1.
      * exfalso. apply Hne. f_equal. apply H2.
        rewrite (proj1 H1 eq_refl). reflexivity.
      * destruct b2; [|congruence]. split; [|apply H2; reflexivity].
        intros E. apply H1 in E. discriminate.
    + intros [Hne Heq] E. injection E as E. subst b2.
      apply H2 in Heq. subst b1. apply Hne. apply H1. reflexivity.
Qed.

Lemma fnmatch_normalizes_witness :
  fnmatch nt_host (L "README.TXT") (L "readme.txt")
  <> fnmatchcase nt_host (L "README.TXT") (L "readme.txt") /\
  fnmatch posix_host (L "README.TXT") (L "readme.txt")
  = fnmatchcase posix_host (L "README.TXT") (L "readme.txt").
Proof.
  split.
  - apply (proj2 (proj2 (proj2
             (fnmatch_normalizes nt_host (L "README.TXT") (L "readme.txt"))))
             nt_escape_ok eq_refl eq_refl).
    split; [discriminate | reflexivity].
  - apply (proj1 (proj2
             (fnmatch_normalizes posix_host (L "README.TXT") (L "readme.txt")))).
    reflexivity.
Defined.

(** C8 as it is stated fails where the pattern has a wildcard or a group:
    under a case-folding [normcase] the two functions differ on the name
    [ABC] and the pattern [a*], and on the name [a] and the pattern [[!A]],
    neither of which is a pair of strings equal up to case. *)
Lemma fnmatch_divergence_counterexample :
  (fnmatch nt_host (L "ABC") (L "a*") = Ok true /\
   fnmatchcase nt_host (L "ABC") (L "a*") = Ok false /\
   normcase nt_host (L "ABC") <> normcase nt_host (L "a*")) /\
  (fnmatch nt_host (L "a") (L "[!A]") = Ok false /\
   fnmatchcase nt_host (L "a") (L "[!A]") = Ok true /\
   normcase nt_host (L "a") <> normcase nt_host (L "[!A]")) /\
  ~ (forall name pat,
        fnmatch nt_host name pat <> fnmatchcase nt_host name pat
        <-> name <> pat /\ normcase nt_host name = normcase nt_host pat).
Proof.
  split; [repeat split; discriminate|].
  split; [repeat split; discriminate|].
  intros H.
  assert (Hd : fnmatch nt_host (L "ABC") (L "a*")
               <> fnmatchcase nt_host (L "ABC") (L "a*")) by discriminate.
  apply H in Hd. destruct Hd as [_ Hd]. discriminate Hd.
Qed.

(** ** Filtering *)

Lemma translate_star_py (h : host) :
  escape_ok h -> translate h (L "*.py") = Ok (L "(?ms).*\.py\Z").
Proof.
  intros Hh. unfold translate, translate_fuel. simpl List.length.
  rewrite loop_step by (simpl; lia). rewrite body_star by reflexivity.
  cbn [bind fst snd]. rewrite loop_step by (simpl; lia).
  rewrite (body_ordinary h _ 1 _ ".") by reflexivity.
  cbn [bind fst snd]. rewrite loop_step by (simpl; lia).
  rewrite (body_ordinary h _ 2 _ "p") by reflexivity.
  cbn [bind fst snd]. rewrite loop_step by (simpl; lia).
  rewrite (body_ordinary h _ 3 _ "y") by reflexivity.
  cbn [bind fst snd]. rewrite loop_done by (simpl; lia).
  rewrite (escape_special h "." Hh eq_refl).
  rewrite (escape_alnum h "p" Hh eq_refl), (escape_alnum h "y" Hh eq_refl).
  reflexivity.
Qed.

(** C9, as the code has it.  When the normalized pattern compiles,
    [filter] returns the names that [fnmatch] accepts, each where it stood
    and in the order of the input, and the empty list when [fnmatch]
    accepts none; the names [a.py], [b.txt], [c.py] filtered by [*.py] give
    [a.py], [c.py]. *)
Theorem filter_subsequence (h : host) (names : list str) (pat : str) (r : regex) :
  escape_ok h ->
  posix_nop h ->
  (_compile_pattern h (normcase h pat) = Ok r ->
   filter h names pat
   = Ok (List.filter (fun name => holds (fnmatch h name pat)) names) /\
   (forall name, fnmatch h name pat = Ok (re_match r (normcase h name))) /\
   ((forall name, In name names -> fnmatch h name pat = Ok false) ->
    filter h names pat = Ok [])) /\
  ((forall s, In s (map L ["*.py"; "a.py"; "b.txt"; "c.py"]%string) ->
              normcase h s = s) ->
   filter h (map L ["a.py"; "b.txt"; "c.py"]%string) (L "*.py")
   = Ok (map L ["a.py"; "c.py"]%string)).
Proof.
  intros Hh Hpn. split; [intros Hc|].
  assert (Hm : forall name, fnmatch h name pat = Ok (re_match r (normcase h name))).
  { intros name. unfold fnmatch, fnmatchcase. rewrite Hc. reflexivity. }
  assert (Hf : filter h names pat
               = Ok (List.filter (fun name => holds (fnmatch h name pat)) names)).
  { unfold filter. rewrite Hc. cbn [bind].
    destruct (posixpath h) eqn:Hp; rewrite filter_loop_filter; f_equal;
      apply filter_ext; intros name; rewrite Hm.
    - rewrite (Hpn Hp name). destruct (re_match r name); reflexivity.
    - destruct (re_match r (normcase h name)); reflexivity. }
  split; [exact Hf|]. split; [exact Hm|].
  - intros Hnone. rewrite Hf. f_equal. clear Hf.
    induction names as [|n names IH]; [reflexivity|]. simpl.
    rewrite (Hnone n (or_introl eq_refl)). simpl.
    apply IH. intros name Hin. apply Hnone. right. assumption.
  - intros Hfix. unfold filter, _compile_pattern.
    rewrite (Hfix (L "*.py")) by (left; reflexivity).
    rewrite (translate_star_py h Hh). cbn [bind].
    change (re_compile (L "(?ms).*\.py\Z"))
      with (@Ok regex [Star (Any true); lit "."; lit "p"; lit "y"; AtEnd]).
    cbn [bind]. rewrite !filter_loop_filter.
    destruct (posixpath h); [reflexivity|].
    change (map L ["a.py"; "b.txt"; "c.py"]%string)
      with [L "a.py"; L "b.txt"; L "c.py"].
    cbn [List.filter].
    rewrite (Hfix (L "a.py")) by (simpl; auto).
    rewrite (Hfix (L "b.txt")) by (simpl; auto).
    rewrite (Hfix (L "c.py")) by (simpl; auto).
    reflexivity.
Qed.

Lemma filter_subsequence_witness :
  filter nt_host (map L ["A.PY"; "b.txt"; "c.py"]%string) (L "*.Py")
  = Ok (map L ["A.PY"; "c.py"]%string).
Proof.
  assert (Hc : _compile_pattern nt_host (normcase nt_host (L "*.Py"))
               = Ok [Star (Any true); lit "."; lit "p"; lit "y"; AtEnd])
    by reflexivity.
  rewrite (proj1 (proj1 (filter_subsequence nt_host
                    (map L ["A.PY"; "b.txt"; "c.py"]%string) (L "*.Py") _
                    nt_escape_ok nt_posix_nop) Hc)).
  reflexivity.
Defined.

(** C9 as it is stated fails on a pattern whose translation the engine
    rejects: a group with a range that runs backwards makes [filter] raise,
    even on an empty list of names. *)
Lemma filter_counterexample :
  translate posix_host (L "[z-a]") = Ok (L "(?ms)[z-a]\Z") /\
  filter posix_host [] (L "[z-a]") = Raise ReError /\
  filter posix_host [L "x"] (L "[z-a]") = Raise ReError.
Proof. repeat split. Qed.

(** * Further properties of the code *)

(** ** The scan is local: what precedes the index does not matter *)

Lemma body_res (h : host) (pat : str) (i : nat) (res : str) :
  translate_body h pat i res
  = (st <- translate_body h pat i [] ;; Ok (fst st, res ++ snd st)).
Proof.
  unfold translate_body.
  destruct (nth_error pat i) as [c|]; [|reflexivity].
  destruct (c =? "*"); [reflexivity|].
  destruct (c =? "?"); [reflexivity|].
  destruct (c =? "["); [|reflexivity].
  destruct (Nat.leb (List.length pat) (scan_close pat (S i))); [reflexivity|].
  destruct (dbl (slice pat (S i) (scan_close pat (S i)))); reflexivity.
Qed.

Lemma skipn_shift (p q : str) (k : nat) :
  skipn (List.length p + k) (p ++ q) = skipn k q.
Proof.
  induction p as [|x p IH]; simpl; [reflexivity | exact IH].
Qed.

Lemma nth_error_shift (p q : str) (k : nat) :
  nth_error (p ++ q) (List.length p + k) = nth_error q k.
Proof.
  induction p as [|x p IH]; simpl; [reflexivity | exact IH].
Qed.

(** An iteration at an index of [q] does the same in [p ++ q], the indices
    moved by the length of [p]. *)
Lemma body_shift (h : host) (p q : str) (i : nat) (res : str) :
  translate_body h (p ++ q) (List.length p + i) res
  = (st <- translate_body h q i res ;; Ok (List.length p + fst st, snd st)).
Proof.
  destruct (nth_error q i) as [c|] eqn:Hc.
  - assert (Hc' : nth_error (p ++ q) (List.length p + i) = Some c)
      by (rewrite nth_error_shift; exact Hc).
    assert (Hs : skipn (S (List.length p + i)) (p ++ q) = skipn (S i) q).
    { replace (S (List.length p + i)) with (List.length p + S i) by lia.
      apply skipn_shift. }
    destruct (Ascii.eqb_spec c "*") as [->|H1].
    { rewrite !body_star by assumption. simpl. f_equal. f_equal. lia. }
    destruct (Ascii.eqb_spec c "?") as [->|H2].
    { rewrite !body_question by assumption. simpl. f_equal. f_equal. lia. }
    destruct (Ascii.eqb_spec c "[") as [->|H3].
    + destruct (bracket_cases (skipn (S i) q)) as [Hno | (content & tail & Hq & Hg)].
      * rewrite (body_open h q i res Hc Hno).
        rewrite (body_open h (p ++ q) _ res Hc') by (rewrite Hs; exact Hno).
        simpl. f_equal. f_equal. lia.
      * rewrite (body_closed h q i res content tail Hc Hq Hg).
        rewrite (body_closed h (p ++ q) _ res content tail Hc')
          by (assumption || (rewrite Hs; exact Hq)).
        simpl. f_equal. f_equal. lia.
    + assert (Ho : ordinary c = true).
      { unfold ordinary. apply Ascii.eqb_neq in H1, H2, H3.
        rewrite H1, H2, H3. reflexivity. }
      rewrite (body_ordinary h q i res c Hc Ho).
      rewrite (body_ordinary h (p ++ q) _ res c Hc' Ho).
      simpl. f_equal. f_equal. lia.
  - unfold translate_body. rewrite nth_error_shift, Hc. reflexivity.
Qed.

Lemma loop_shift (h : host) (p q : str) :
  forall fuel i res,
    translate_loop fuel h (p ++ q) (List.length p + i) res
    = translate_loop fuel h q i res.
Proof.
  induction fuel as [|fuel IH]; intros i res; simpl; rewrite length_app.
  - destruct (Nat.ltb_spec i (List.length q)) as [Hi|Hi].
    + assert (E : Nat.ltb (List.length p + i) (List.length p + List.length q) = true)
        by (apply Nat.ltb_lt; lia).
      rewrite E. reflexivity.
    + assert (E : Nat.ltb (List.length p + i) (List.length p + List.length q) = false)
        by (apply Nat.ltb_ge; lia).
      rewrite E. reflexivity.
  - destruct (Nat.ltb_spec i (List.length q)) as [Hi|Hi].
    + assert (E : Nat.ltb (List.length p + i) (List.length p + List.length q) = true)
        by (apply Nat.ltb_lt; lia).
      rewrite E, body_shift.
      destruct (translate_body h q i res) as [[i' res']|e]; [|reflexivity].
      simpl. apply IH.
    + assert (E : Nat.ltb (List.length p + i) (List.length p + List.length q) = false)
        by (apply Nat.ltb_ge; lia).
      rewrite E. reflexivity.
Qed.

Lemma loop_res (h : host) (pat : str) :
  forall fuel i res,
    translate_loop fuel h pat i res
    = (out <- translate_loop fuel h pat i [] ;; Ok (res ++ out)).
Proof.
  induction fuel as [|fuel IH]; intros i res; simpl.
  - destruct (Nat.ltb i (List.length pat)); [reflexivity|].
    simpl. rewrite app_nil_r. reflexivity.
  - destruct (Nat.ltb i (List.length pat)).
    + rewrite (body_res h pat i res).
      destruct (translate_body h pat i []) as [[i' c]|e]; [|reflexivity].
      simpl. rewrite (IH i' (res ++ c)), (IH i' c).
      destruct (translate_loop fuel h pat i' []) as [out|e]; [|reflexivity].
      simpl. rewrite app_assoc. reflexivity.
    + simpl. rewrite app_nil_r. reflexivity.
Qed.

Lemma translate_of_res (h : host) (pat : str) :
  translate h pat = (res <- translate_res h pat ;; Ok (L "(?ms)" ++ res ++ L "\Z")).
Proof. reflexivity. Qed.

(** The first piece of a pattern is translated on its own and the rest as
    if it stood alone. *)
Lemma res_first (h : host) (text q chunk : str) :
  text <> [] ->
  (forall res, translate_body h (text ++ q) 0 res
               = Ok (List.length text, res ++ chunk)) ->
  translate_res h (text ++ q)
  = (out <- translate_res h q ;; Ok (chunk ++ out)).
Proof.
  intros Hne Hb. unfold translate_res. rewrite length_app.
  destruct text as [|x text]; [congruence|].
  change (List.length (x :: text) + List.length q)
    with (S (List.length text + List.length q)).
  rewrite loop_step by (rewrite length_app; simpl; lia).
  rewrite (Hb []). cbn [bind fst snd].
  rewrite <- (Nat.add_0_r (List.length (x :: text))).
  rewrite loop_shift.
  rewrite (translate_loop_fuel h q (List.length q) (List.length text + List.length q))
    by lia.
  apply loop_res.
Qed.

Lemma res_token (h : host) (t : token) (ts : list token) :
  tokens_wf (t :: ts) ->
  translate_res h (pattern_of (t :: ts))
  = (out <- translate_res h (pattern_of ts) ;; Ok (token_regex h t ++ out)).
Proof.
  intros Hwf. change (pattern_of (t :: ts)) with (token_text t ++ pattern_of ts).
  inversion Hwf as [ | ts' H | ts' H | c ts' Ho H | ts' Hno H | content ts' Hg H];
    subst; simpl token_text; simpl token_regex.
  - apply res_first; [discriminate|]. intros res. apply body_star. reflexivity.
  - apply res_first; [discriminate|]. intros res. apply body_question. reflexivity.
  - apply (res_first h [c]); [discriminate|]. intros res.
    apply body_ordinary; [reflexivity | assumption].
  - apply res_first; [discriminate|]. intros res.
    apply body_open; [reflexivity | exact Hno].
  - apply (res_first h (L "[" ++ content ++ L "]")); [discriminate|]. intros res.
    rewrite (body_closed h _ 0 res content (pattern_of ts)); auto.
    + f_equal. f_equal. simpl. rewrite length_app. simpl. lia.
    + simpl. rewrite <- app_assoc. reflexivity.
Qed.

Lemma res_tokens (h : host) (ts : list token) :
  tokens_wf ts ->
  translate_res h (pattern_of ts) = Ok (flat_map (token_regex h) ts).
Proof.
  induction ts as [|t ts IH]; intros Hwf; [reflexivity|].
  rewrite (res_token h t ts Hwf).
  rewrite IH by (inversion Hwf; assumption). reflexivity.
Qed.

(** Every pattern is cut into tokens, and without a [-] in the pattern no
    token has one. *)
Lemma tokenize (n : nat) :
  forall pat,
    List.length pat <= n ->
    exists ts, tokens_wf ts /\ pattern_of ts = pat /\
               (~ In "-" pat -> Forall token_plain ts).
Proof.
  induction n as [|n IH]; intros pat Hn.
  - destruct pat; [|simpl in Hn; lia].
    exists []. repeat split; constructor.
  - destruct pat as [|c rest].
    { exists []. repeat split; constructor. }
    simpl in Hn.
    destruct (Ascii.eqb_spec c "*") as [->|H1].
    { destruct (IH rest) as (ts & Hwf & <- & Hp); [lia|].
      exists (TStar :: ts). repeat split; [constructor; assumption|].
      intros Hd. constructor; [exact I|]. apply Hp. intros Hin. apply Hd. right. assumption. }
    destruct (Ascii.eqb_spec c "?") as [->|H2].
    { destruct (IH rest) as (ts & Hwf & <- & Hp); [lia|].
      exists (TQuestion :: ts). repeat split; [constructor; assumption|].
      intros Hd. constructor; [exact I|]. apply Hp. intros Hin. apply Hd. right. assumption. }
    destruct (Ascii.eqb_spec c "[") as [->|H3].
    + destruct (bracket_cases rest) as [Hno | (content & tail & -> & Hg)].
      * destruct (IH rest) as (ts & Hwf & <- & Hp); [lia|].
        exists (TOpen :: ts). repeat split; [constructor; assumption|].
        intros Hd. constructor; [exact I|]. apply Hp. intros Hin. apply Hd. right. assumption.
      * destruct (IH tail) as (ts & Hwf & <- & Hp).
        { rewrite length_app in Hn. simpl in Hn. lia. }
        exists (TGroup content :: ts). split; [constructor; assumption|]. split.
        -- simpl. rewrite <- app_assoc. reflexivity.
        -- intros Hd. constructor.
           ++ simpl. intros Hin. apply Hd. right. apply in_or_app. left. assumption.
           ++ apply Hp. intros Hin. apply Hd. right. apply in_or_app. right. right. assumption.
    + destruct (IH rest) as (ts & Hwf & <- & Hp); [lia|].
      exists (TChar c :: ts). repeat split.
      * constructor; [|assumption]. unfold ordinary.
        apply Ascii.eqb_neq in H1, H2, H3. rewrite H1, H2, H3. reflexivity.
      * intros Hd. constructor; [exact I|]. apply Hp. intros Hin. apply Hd. right. assumption.
Qed.

(** ** Tokens through the engine *)

Lemma run_tokens (h : host) (ts : list token) :
  escape_ok h -> tokens_wf ts -> Forall token_plain ts ->
  forall last acc,
    exists last' acc',
      re_run true (Top last, acc) (flat_map (token_regex h) ts)
      = Some (Top last', acc')
      /\ flush last' acc' = flush last acc ++ map token_node ts.
Proof.
  intros Hh Hwf. induction Hwf as [ | ts Hwf IH | ts Hwf IH | c ts Ho Hwf IH
                                   | ts Hno Hwf IH | content ts Hg Hwf IH];
    intros Hp last acc.
  - exists last, acc. simpl. rewrite app_nil_r. auto.
  - inversion Hp; subst. cbn [flat_map]. rewrite re_run_app.
    change (token_regex h TStar) with (L ".*"). rewrite run_dot_star.
    destruct (IH H2 None (flush last acc ++ [Star (Any true)]))
      as (last' & acc' & Hr & Hf).
    exists last', acc'. split; [exact Hr|]. rewrite Hf. simpl.
    rewrite <- app_assoc. reflexivity.
  - inversion Hp; subst. cbn [flat_map]. rewrite re_run_app.
    change (token_regex h TQuestion) with (L "."). rewrite run_dot.
    destruct (IH H2 (Some (Any true)) (flush last acc)) as (last' & acc' & Hr & Hf).
    exists last', acc'. split; [exact Hr|]. rewrite Hf. simpl.
    rewrite <- app_assoc. reflexivity.
  - inversion Hp; subst. cbn [flat_map]. rewrite re_run_app.
    change (token_regex h (TChar c)) with (escape_char h c).
    rewrite (run_escaped true h c last acc Hh).
    destruct (IH H2 (Some (Lit c)) (flush last acc)) as (last' & acc' & Hr & Hf).
    exists last', acc'. split; [exact Hr|]. rewrite Hf. simpl.
    rewrite <- app_assoc. reflexivity.
  - inversion Hp; subst. cbn [flat_map]. rewrite re_run_app.
    change (token_regex h TOpen) with (L "\["). rewrite run_bracket_literal.
    destruct (IH H2 (Some (Lit "[")) (flush last acc)) as (last' & acc' & Hr & Hf).
    exists last', acc'. split; [exact Hr|]. rewrite Hf. simpl.
    rewrite <- app_assoc. reflexivity.
  - inversion Hp; subst. cbn [flat_map]. rewrite re_run_app.
    change (token_regex h (TGroup content))
      with (L "[" ++ class_text content ++ L "]").
    rewrite (run_plain_group true last acc content Hg H1).
    destruct (IH H2 (Some (InSet (negated content) (map SLit (members content))))
                (flush last acc)) as (last' & acc' & Hr & Hf).
    exists last', acc'. split; [exact Hr|]. rewrite Hf. simpl.
    rewrite <- app_assoc. reflexivity.
Qed.

Lemma tokens_compile (h : host) (ts : list token) :
  escape_ok h -> tokens_wf ts -> Forall token_plain ts ->
  _compile_pattern h (pattern_of ts) = Ok (map token_node ts ++ [AtEnd]).
Proof.
  intros Hh Hwf Hp. unfold _compile_pattern.
  rewrite translate_of_res, (res_tokens h ts Hwf). cbn [bind].
  rewrite re_compile_flags.
  destruct (run_tokens h ts Hh Hwf Hp None []) as (last & acc & Hr & Hf).
  change (re_run true re_start (flat_map (token_regex h) ts) = Some (Top last, acc))
    in Hr.
  rewrite (re_parse_anchored _ _ _ Hr), Hf. reflexivity.
Qed.

Lemma exists_literals (c : ascii) (m : str) :
  existsb (item_ok c) (map SLit m) = existsb (Ascii.eqb c) m.
Proof.
  induction m as [|x m IH]; simpl; [reflexivity|]. rewrite IH. reflexivity.
Qed.

Lemma glob_star_cons (ts : list token) (c : ascii) (s : str) :
  glob (TStar :: ts) s -> glob (TStar :: ts) (c :: s).
Proof.
  intros H. inversion H as [ | ts' s1 s2 Hg | t ts' c' s' Hne _ _]; subst.
  - apply (glob_star ts (c :: s1) s2 Hg).
  - congruence.
Qed.

Lemma match_glob (ts : list token) :
  forall s, re_match (map token_node ts ++ [AtEnd]) s = true <-> glob ts s.
Proof.
  induction ts as [|t ts IH]; intros s.
  - destruct s; simpl; split; intros H; try discriminate.
    + constructor.
    + reflexivity.
    + inversion H.
  - destruct t as [ | | x | | content].
    + (* a star *)
      change (map token_node (TStar :: ts) ++ [AtEnd])
        with (Star (Any true) :: (map token_node ts ++ [AtEnd])).
      split.
      * induction s as [|c s IHs]; rewrite re_match_star; intros H.
        -- rewrite orb_false_r in H. apply IH in H.
           apply (glob_star ts [] [] H).
        -- apply orb_true_iff in H. destruct H as [H|H].
           ++ apply IH in H. apply (glob_star ts [] (c :: s) H).
           ++ simpl in H. apply glob_star_cons. apply IHs. exact H.
      * intros H. inversion H as [ | ts' s1 s2 Hg | t ts' c' s' Hne _ _]; subst;
          [|congruence].
        clear H. induction s1 as [|c s1 IHs]; rewrite re_match_star.
        -- simpl app. apply IH in Hg. rewrite Hg. reflexivity.
        -- change ((c :: s1) ++ s2) with (c :: (s1 ++ s2)). cbv iota.
           rewrite IHs. apply orb_true_r.
    + change (map token_node (TQuestion :: ts) ++ [AtEnd])
        with (One (Any true) :: (map token_node ts ++ [AtEnd])).
      destruct s as [|c s]; simpl; split; intros H; try discriminate.
      * inversion H; congruence.
      * apply glob_one; [discriminate | reflexivity | apply IH; exact H].
      * inversion H as [ | | t ts' c' s' _ _ Hg]; subst. apply IH. exact Hg.
    + change (map token_node (TChar x :: ts) ++ [AtEnd])
        with (One (Lit x) :: (map token_node ts ++ [AtEnd])).
      destruct s as [|c s]; simpl; split; intros H; try discriminate.
      * inversion H; congruence.
      * apply andb_true_iff in H. destruct H as [H1 H2].
        apply glob_one; [discriminate | exact H1 | apply IH; exact H2].
      * inversion H as [ | | t ts' c' s' _ Hc Hg]; subst.
        simpl in Hc. rewrite Hc. apply IH. exact Hg.
    + change (map token_node (TOpen :: ts) ++ [AtEnd])
        with (One (Lit "[") :: (map token_node ts ++ [AtEnd])).
      destruct s as [|c s]; simpl; split; intros H; try discriminate.
      * inversion H; congruence.
      * apply andb_true_iff in H. destruct H as [H1 H2].
        apply glob_one; [discriminate | exact H1 | apply IH; exact H2].
      * inversion H as [ | | t ts' c' s' _ Hc Hg]; subst.
        simpl in Hc. rewrite Hc. apply IH. exact Hg.
    + change (map token_node (TGroup content :: ts) ++ [AtEnd])
        with (One (InSet (negated content) (map SLit (members content)))
                :: (map token_node ts ++ [AtEnd])).
      assert (Hc : forall c,
                 atom_ok (InSet (negated content) (map SLit (members content))) c
                 = token_char (TGroup content) c).
      { intros c. simpl. rewrite exists_literals.
        destruct (negated content); reflexivity. }
      destruct s as [|c s]; cbn [re_match]; split; intros H; try discriminate.
      * inversion H; congruence.
      * apply andb_true_iff in H. destruct H as [H1 H2]. rewrite Hc in H1.
        apply glob_one; [discriminate | exact H1 | apply IH; exact H2].
      * inversion H as [ | | t ts' c' s' _ Hc' Hg]; subst.
        rewrite Hc, Hc'. apply IH. exact Hg.
Qed.

(** ** Properties of the translator *)

(** X1. The scan cuts every pattern into tokens (wildcards, ordinary
    characters, unclosed brackets and groups), and the translation is the
    flags, the translations of the tokens in order, and the end anchor;
    conversely every sequence cut that way is translated token by token. *)
Theorem translate_by_tokens (h : host) (pat : str) :
  (exists ts,
      tokens_wf ts /\ pattern_of ts = pat /\
      translate h pat = Ok (L "(?ms)" ++ flat_map (token_regex h) ts ++ L "\Z")) /\
  (forall ts,
      tokens_wf ts ->
      translate h (pattern_of ts)
      = Ok (L "(?ms)" ++ flat_map (token_regex h) ts ++ L "\Z")).
Proof.
  assert (G : forall ts,
             tokens_wf ts ->
             translate h (pattern_of ts)
             = Ok (L "(?ms)" ++ flat_map (token_regex h) ts ++ L "\Z")).
  { intros ts Hwf. rewrite translate_of_res, (res_tokens h ts Hwf). reflexivity. }
  split; [|exact G].
  destruct (tokenize (List.length pat) pat (le_n _)) as (ts & Hwf & E & _).
  exists ts. repeat split; try assumption. rewrite <- E. apply G. assumption.
Qed.

Lemma translate_by_tokens_witness :
  translate uefi_host (pattern_of [TChar "a"; TStar; TGroup (L "!x\"); TOpen; TQuestion])
  = Ok (L "(?ms)a.*[^x\\]\[.\Z").
Proof.
  apply (proj2 (translate_by_tokens uefi_host [])
           [TChar "a"; TStar; TGroup (L "!x\"); TOpen; TQuestion]).
  apply wf_char; [reflexivity|]. apply wf_star. apply wf_group.
  - unfold group_content. simpl. repeat split; try discriminate.
    intuition discriminate.
  - apply wf_open; [unfold no_close; simpl; intuition discriminate|].
    apply wf_question. apply wf_nil.
Defined.

Lemma first_char_body (h : host) (c : ascii) :
  c <> "[" ->
  exists chunk,
    forall rest res,
      translate_body h ([c] ++ rest) 0 res = Ok (List.length [c], res ++ chunk).
Proof.
  intros Hc.
  destruct (Ascii.eqb_spec c "*") as [->|H1].
  { exists (L ".*"). intros. apply body_star. reflexivity. }
  destruct (Ascii.eqb_spec c "?") as [->|H2].
  { exists (L "."). intros. apply body_question. reflexivity. }
  exists (escape_char h c). intros. apply body_ordinary; [reflexivity|].
  unfold ordinary. apply Ascii.eqb_neq in H1, H2, Hc. rewrite H1, H2, Hc.
  reflexivity.
Qed.

(** X2. A prefix without [[] is translated on its own: the text written
    for [p ++ q] is the text written for [p] followed by the text written
    for [q].  With a [[] in the prefix this fails, as the group may close in
    [q]. *)
Theorem translate_prefix (h : host) (p q : str) :
  (~ In "[" p ->
   translate_res h (p ++ q)
   = (a <- translate_res h p ;; b <- translate_res h q ;; Ok (a ++ b))) /\
  translate_res h (L "[a" ++ L "]") = Ok (L "[a]") /\
  (a <- translate_res h (L "[a") ;; b <- translate_res h (L "]") ;; Ok (a ++ b))
  = Ok ((L "\[" ++ escape_char h "a") ++ escape_char h "]").
Proof.
  split; [|split; reflexivity].
  induction p as [|c p IH]; intros Hno.
  - simpl app. change (translate_res h []) with (@Ok str []). cbn [bind].
    destruct (translate_res h q); reflexivity.
  - assert (Hc : c <> "[") by (intros ->; apply Hno; left; reflexivity).
    destruct (first_char_body h c Hc) as [chunk Hb].
    change ((c :: p) ++ q) with ([c] ++ (p ++ q)).
    change (c :: p) with ([c] ++ p).
    rewrite (res_first h [c] (p ++ q) chunk) by (discriminate || apply Hb).
    rewrite (res_first h [c] p chunk) by (discriminate || apply Hb).
    rewrite IH by (intros Hin; apply Hno; right; assumption).
    destruct (translate_res h p) as [a|e]; [|reflexivity]. cbn [bind].
    destruct (translate_res h q) as [b|e]; [|reflexivity]. cbn [bind].
    rewrite app_assoc. reflexivity.
Qed.

Lemma translate_prefix_witness :
  translate_res uefi_host (L "a?." ++ L "[x]*")
  = (a <- translate_res uefi_host (L "a?.") ;;
     b <- translate_res uefi_host (L "[x]*") ;; Ok (a ++ b)).
Proof.
  apply (proj1 (translate_prefix uefi_host (L "a?.") (L "[x]*"))).
  simpl. intuition discriminate.
Defined.

Lemma dbl_length (m : str) :
  List.length m <= List.length (dbl m) <= 2 * List.length m.
Proof.
  induction m as [|x m IH]; [simpl; lia|].
  rewrite dbl_cons, length_app. set (d := dbl m) in *.
  destruct (x =? "\"); simpl; lia.
Qed.

Lemma class_text_length (content : str) :
  List.length content <= List.length (class_text content)
  <= 2 * List.length content.
Proof.
  rewrite class_text_shape. destruct content as [|c r]; [simpl; lia|].
  pose proof (dbl_length r) as Hr. pose proof (dbl_length (c :: r)) as Hc.
  set (d := dbl r) in *. set (d' := dbl (c :: r)) in *.
  destruct (c =? "!"); [simpl in *; lia|].
  destruct (c =? "^"); simpl in *; lia.
Qed.

Lemma token_regex_length (h : host) (t : token) :
  escape_ok h ->
  List.length (token_text t) <= List.length (token_regex h t)
  <= 2 * List.length (token_text t).
Proof.
  intros Hh. destruct t as [ | | c | | content]; simpl; try lia.
  - destruct (escape_char_cases h c Hh) as [[-> _] | [-> _]]; simpl; lia.
  - pose proof (class_text_length content) as Hc.
    set (d := class_text content) in *.
    rewrite !length_app. simpl. lia.
Qed.

(** X3. The translation is at least as long as the pattern and at most
    twice as long, the seven characters of the flags and the anchor apart. *)
Theorem translate_size (h : host) (pat e : str) :
  escape_ok h ->
  translate h pat = Ok e ->
  List.length pat + 7 <= List.length e <= 2 * List.length pat + 7.
Proof.
  intros Hh He.
  destruct (tokenize (List.length pat) pat (le_n _)) as (ts & Hwf & <- & _).
  assert (Ht : translate h (pattern_of ts)
               = Ok (L "(?ms)" ++ flat_map (token_regex h) ts ++ L "\Z"))
    by (rewrite translate_of_res, (res_tokens h ts Hwf); reflexivity).
  rewrite Ht in He. injection He as <-.
  assert (G : List.length (pattern_of ts)
              <= List.length (flat_map (token_regex h) ts)
              <= 2 * List.length (pattern_of ts)).
  { clear Ht Hwf. induction ts as [|t ts IH]; [simpl; lia|].
    unfold pattern_of in *. cbn [flat_map]. rewrite !length_app.
    pose proof (token_regex_length h t Hh). lia. }
  set (r := flat_map (token_regex h) ts) in *.
  cbn [List.length]. rewrite length_app. simpl List.length. lia.
Qed.

Lemma translate_size_witness :
  List.length (L "[\\]*") + 7 <= List.length (L "(?ms)[\\\\].*\Z")
  <= 2 * List.length (L "[\\]*") + 7.
Proof.
  apply (translate_size uefi_host (L "[\\]*") (L "(?ms)[\\\\].*\Z")).
  - exact uefi_escape_ok.
  - reflexivity.
Defined.

(** ** Matching as the docstring describes it *)

Lemma fnmatchcase_glob_aux (h : host) (ts : list token) (name : str) :
  escape_ok h -> tokens_wf ts -> Forall token_plain ts ->
  (exists b, fnmatchcase h name (pattern_of ts) = Ok b) /\
  (fnmatchcase h name (pattern_of ts) = Ok true <-> glob ts name).
Proof.
  intros Hh Hwf Hp. unfold fnmatchcase.
  rewrite (tokens_compile h ts Hh Hwf Hp). cbn [bind]. split.
  - eauto.
  - rewrite ok_true. apply match_glob.
Qed.

(** X4. For a pattern cut into tokens none of which is a group with a
    range, [fnmatchcase] returns a truth value, and it is true exactly when
    the name matches in the sense of the docstring: [*] stands for any run
    of characters, [?] for one character, a group for one character in (or,
    after [!], not in) its list, and every other character for itself. *)
Theorem fnmatchcase_glob (h : host) (ts : list token) (name : str) :
  escape_ok h -> tokens_wf ts -> Forall token_plain ts ->
  (exists b, fnmatchcase h name (pattern_of ts) = Ok b) /\
  (fnmatchcase h name (pattern_of ts) = Ok true <-> glob ts name).
Proof.
  intros Hh Hwf Hp. unfold fnmatchcase.
  rewrite (tokens_compile h ts Hh Hwf Hp). cbn [bind]. split.
  - exists (re_match (map token_node ts ++ [AtEnd]) name). reflexivity.
  - rewrite ok_true. apply match_glob.
Qed.

Lemma fnmatchcase_glob_witness :
  fnmatchcase posix_host (L "report-7.txt")
    (pattern_of [TChar "r"; TStar; TChar "-"; TGroup (L "!a_"); TChar "."; TStar])
  = Ok true.
Proof.
  apply (proj2 (fnmatchcase_glob posix_host
                  [TChar "r"; TStar; TChar "-"; TGroup (L "!a_"); TChar "."; TStar]
                  (L "report-7.txt") posix_escape_ok
                  ltac:(repeat (constructor; try reflexivity);
                        unfold group_content; simpl; repeat split;
                        try discriminate; intuition discriminate)
                  ltac:(repeat constructor; simpl; intuition discriminate))).
  apply (glob_one (TChar "r")); [discriminate | reflexivity|].
  apply (glob_star _ (L "eport") (L "-7.txt")).
  apply (glob_one (TChar "-")); [discriminate | reflexivity|].
  apply (glob_one (TGroup (L "!a_"))); [discriminate | reflexivity|].
  apply (glob_one (TChar ".")); [discriminate | reflexivity|].
  apply (glob_star _ (L "txt") []). constructor.
Defined.

(** X5. The only exception [fnmatchcase] raises is the engine's: the
    translator never fails under it.  For a pattern without [-] it raises
    nothing at all. *)
Theorem fnmatchcase_raises (h : host) (name pat : str) :
  (forall e, fnmatchcase h name pat = Raise e -> e = ReError) /\
  (escape_ok h -> ~ In "-" pat -> exists b, fnmatchcase h name pat = Ok b).
Proof.
  split.
  - intros e. unfold fnmatchcase, _compile_pattern.
    rewrite translate_of_res.
    destruct (translate_res h pat) as [res|e0] eqn:E.
    + cbn [bind]. rewrite re_compile_flags. unfold re_parse.
      destruct (re_run true re_start (res ++ L "\Z")) as [[[ | | | ] ?]|];
        cbn [bind]; congruence.
    + exfalso. destruct (translate_total_aux h pat) as [out Hout].
      rewrite translate_of_res, E in Hout. discriminate.
  - intros Hh Hd.
    destruct (tokenize (List.length pat) pat (le_n _)) as (ts & Hwf & <- & Hp).
    apply (fnmatchcase_glob_aux h ts name Hh Hwf (Hp Hd)).
Qed.

Lemma fnmatchcase_raises_witness :
  exists b, fnmatchcase uefi_host (L "x]") (L "[!]*[[]?]") = Ok b.
Proof.
  apply (proj2 (fnmatchcase_raises uefi_host (L "x]") (L "[!]*[[]?]"))).
  - exact uefi_escape_ok.
  - simpl. intuition discriminate.
Defined.

(** X6. A group with one member quotes it: for every character [c] other
    than [!] the pattern [[c]] matches the one-character name [c] and no
    other, so a [*], a [?] and a [[] can be matched literally. *)
Theorem bracket_quotes (h : host) (c : ascii) (name : str) :
  c <> "!" ->
  (fnmatchcase h name ("[" :: c :: L "]") = Ok true <-> name = [c]).
Proof.
  intros Hc. destruct (Ascii.eqb_spec c "-") as [->|Hd].
  - unfold fnmatchcase.
    change (_compile_pattern h ("[" :: "-" :: L "]"))
      with (@Ok regex [One (InSet false [SLit "-"]); AtEnd]).
    cbn [bind]. rewrite ok_true, match_one_set. split.
    + intros (x & -> & H). simpl in H. rewrite orb_false_r in H.
      apply Ascii.eqb_eq in H. subst. reflexivity.
    + intros ->. exists "-". split; reflexivity.
  - assert (Hg : group_content [c]).
    { unfold group_content. repeat split; try congruence.
      rewrite (skip_bang_neq c [] Hc). unfold skip_first.
      destruct (Ascii.eqb_spec c "]"); simpl; intuition congruence. }
    assert (Hnd : ~ In "-" [c]) by (simpl; intuition congruence).
    change ("[" :: c :: L "]") with (L "[" ++ [c] ++ L "]").
    rewrite (plain_group_match h [c] name Hg Hnd).
    assert (Hn : negated [c] = false) by (simpl; apply Ascii.eqb_neq; exact Hc).
    rewrite Hn, (members_plain [c] Hn). split.
    + intros (x & -> & [<-|[]]). reflexivity.
    + intros ->. exists c. split; [reflexivity | left; reflexivity].
Qed.

Lemma bracket_quotes_witness :
  fnmatchcase uefi_host (L "*") (L "[*]") = Ok true.
Proof.
  apply (proj2 (bracket_quotes uefi_host "*" (L "*") ltac:(discriminate))).
  reflexivity.
Defined.

Lemma glob_literal (P s : str) : glob (map TChar P) s <-> s = P.
Proof.
  revert s. induction P as [|c P IH]; intros s; simpl.
  - split; intros H; [inversion H; reflexivity | subst; constructor].
  - split; intros H.
    + inversion H as [ | | t ts c' s' _ Hc Hg]; subst.
      simpl in Hc. apply Ascii.eqb_eq in Hc. apply IH in Hg. congruence.
    + subst. apply glob_one; [discriminate | apply Ascii.eqb_refl | apply IH; reflexivity].
Qed.

Lemma literal_tokens (P : str) :
  forallb ordinary P = true ->
  tokens_wf (map TChar P) /\ Forall token_plain (map TChar P) /\
  pattern_of (map TChar P) = P.
Proof.
  induction P as [|c P IH]; intros Ho.
  - repeat split; constructor.
  - simpl in Ho. apply andb_true_iff in Ho. destruct Ho as [Hc Ho].
    destruct (IH Ho) as (Hwf & Hp & E). repeat split.
    + constructor; assumption.
    + constructor; [exact I | assumption].
    + simpl. rewrite E. reflexivity.
Qed.

(** X7. A pattern made of [*] and a text without wildcards matches by
    suffix: [*] followed by [P] matches exactly the names that end with
    [P], and [P] followed by [*] exactly those that start with it. *)
Theorem star_suffix_prefix (h : host) (P name : str) :
  escape_ok h ->
  forallb ordinary P = true ->
  (fnmatchcase h name (L "*" ++ P) = Ok true <-> exists t, name = t ++ P) /\
  (fnmatchcase h name (P ++ L "*") = Ok true <-> exists t, name = P ++ t).
Proof.
  intros Hh Ho. destruct (literal_tokens P Ho) as (Hwf & Hp & E). split.
  - assert (Hwf' : tokens_wf (TStar :: map TChar P)) by (constructor; assumption).
    assert (Hp' : Forall token_plain (TStar :: map TChar P))
      by (constructor; [exact I | assumption]).
    pose proof (proj2 (fnmatchcase_glob_aux h _ name Hh Hwf' Hp')) as G.
    change (pattern_of (TStar :: map TChar P)) with (L "*" ++ pattern_of (map TChar P)) in G.
    rewrite E in G. rewrite G. split.
    + intros H. inversion H as [ | ts s1 s2 Hg | t ts c s Hne _ _]; subst;
        [|congruence].
      apply glob_literal in Hg. subst. eauto.
    + intros [t ->]. apply glob_star. apply glob_literal. reflexivity.
  - assert (Hwf' : tokens_wf (map TChar P ++ [TStar])).
    { clear E Hp Hwf. induction P as [|c P IH]; simpl.
      - apply wf_star. apply wf_nil.
      - simpl in Ho. apply andb_true_iff in Ho. destruct Ho as [Hc Ho].
        apply wf_char; [exact Hc | apply IH; exact Ho]. }
    assert (Hp' : Forall token_plain (map TChar P ++ [TStar])).
    { apply Forall_app. split; [assumption | repeat constructor]. }
    pose proof (proj2 (fnmatchcase_glob_aux h _ name Hh Hwf' Hp')) as G.
    unfold pattern_of in G, E. rewrite flat_map_app in G. rewrite E in G.
    change (flat_map token_text [TStar]) with (L "*") in G. rewrite G.
    clear. revert name. induction P as [|c P IH]; intros name; simpl.
    + split.
      * intros _. exists name. reflexivity.
      * intros _. rewrite <- (app_nil_r name).
        apply (glob_star [] name []). constructor.
    + split.
      * intros H. inversion H as [ | | t ts c' s _ Hc Hg]; subst.
        simpl in Hc. apply Ascii.eqb_eq in Hc. subst.
        apply IH in Hg. destruct Hg as [t ->]. exists t. reflexivity.
      * intros [t ->]. apply glob_one; [discriminate | apply Ascii.eqb_refl|].
        apply IH. exists t. reflexivity.
Qed.

Lemma star_suffix_prefix_witness :
  fnmatchcase posix_host (L "notes.tar.gz") (L "*" ++ L ".gz") = Ok true /\
  fnmatchcase posix_host (L "notes.tar.gz") (L "notes" ++ L "*") = Ok true.
Proof.
  destruct (star_suffix_prefix posix_host (L ".gz") (L "notes.tar.gz")
              posix_escape_ok eq_refl) as [Hs _].
  destruct (star_suffix_prefix posix_host (L "notes") (L "notes.tar.gz")
              posix_escape_ok eq_refl) as [_ Hp].
  split.
  - apply Hs. exists (L "notes.tar"). reflexivity.
  - apply Hp. exists (L ".tar.gz"). reflexivity.
Defined.

(** ** Properties of [filter] *)

Lemma filter_twice {A} (f : A -> bool) (l : list A) :
  List.filter f (List.filter f l) = List.filter f l.
Proof.
  induction l as [|x l IH]; [reflexivity|]. simpl.
  destruct (f x) eqn:E; simpl; [rewrite E, IH | rewrite IH]; reflexivity.
Qed.

Lemma filter_length_le {A} (f : A -> bool) (l : list A) :
  List.length (List.filter f l) <= List.length l.
Proof.
  induction l as [|x l IH]; [simpl; lia|]. simpl. destruct (f x); simpl; lia.
Qed.

(** X8. Filtering two lists one after the other and joining the results
    is filtering the joined list; a pattern that does not compile raises in
    both. *)
Theorem filter_app_names (h : host) (a b : list str) (pat : str) :
  filter h (a ++ b) pat
  = (x <- filter h a pat ;; y <- filter h b pat ;; Ok (x ++ y)).
Proof.
  unfold filter.
  destruct (_compile_pattern h (normcase h pat)) as [r|e]; [|reflexivity].
  cbn [bind]. destruct (posixpath h); cbn [bind];
    rewrite !filter_loop_filter, filter_app; reflexivity.
Qed.

(** X9. What [filter] returns is a fixed point: filtering it again by the
    same pattern returns it unchanged; it holds only names of the input and
    is no longer than the input. *)
Theorem filter_idempotent (h : host) (names l : list str) (pat : str) :
  filter h names pat = Ok l ->
  filter h l pat = Ok l /\
  (forall name, In name l -> In name names) /\
  List.length l <= List.length names.
Proof.
  unfold filter.
  destruct (_compile_pattern h (normcase h pat)) as [r|e]; [|discriminate].
  cbn [bind]. destruct (posixpath h); rewrite !filter_loop_filter;
    intros E; injection E as <-; rewrite filter_twice;
    (repeat split; [ intros name Hin; apply filter_In in Hin; apply Hin
                   | apply filter_length_le ]).
Qed.

Lemma filter_idempotent_witness :
  filter nt_host (map L ["A.PY"; "c.py"]%string) (L "*.Py")
  = Ok (map L ["A.PY"; "c.py"]%string).
Proof.
  apply (filter_idempotent nt_host (map L ["A.PY"; "b.txt"; "c.py"]%string)
           (map L ["A.PY"; "c.py"]%string) (L "*.Py")).
  reflexivity.
Defined.

(** ** Properties of the escaper *)

Lemma replace_char_absent (c : ascii) (v s : str) :
  ~ In c s -> replace_char c v s = s.
Proof.
  induction s as [|x s IH]; intros H; [reflexivity|].
  unfold replace_char in *. simpl.
  assert (Hx : (x =? c) = false)
    by (apply Ascii.eqb_neq; intros ->; apply H; left; reflexivity).
  rewrite Hx, IH; [reflexivity|]. intros Hin. apply H. right. assumption.
Qed.

Lemma first_mapped_none (chmap : list (nat * str)) (p : str) :
  (forall c, In c p -> lookup chmap (ord c) = None) ->
  first_mapped chmap p = None.
Proof.
  induction p as [|x p IH]; intros H; [reflexivity|]. simpl.
  rewrite (H x (or_introl eq_refl)). apply IH.
  intros c Hin. apply H. right. assumption.
Qed.

Lemma first_mapped_split (chmap : list (nat * str)) (pre rest : str)
  (c : ascii) (v : str) :
  (forall x, In x pre -> lookup chmap (ord x) = None) ->
  lookup chmap (ord c) = Some v ->
  first_mapped chmap (pre ++ c :: rest) = Some (c, v).
Proof.
  intros Hpre Hc. induction pre as [|x pre IH]; simpl.
  - rewrite Hc. reflexivity.
  - rewrite (Hpre x (or_introl eq_refl)). apply IH.
    intros y Hin. apply Hpre. right. assumption.
Qed.

(** X10. [_re_translate] returns a string without mapped characters as it
    is, the empty string included. *)
Theorem _re_translate_unmapped (p : str) (chmap : list (nat * str)) :
  (forall c, In c p -> lookup chmap (ord c) = None) ->
  _re_translate p chmap = p.
Proof.
  intros H. unfold _re_translate. rewrite (first_mapped_none chmap p H).
  reflexivity.
Qed.

Lemma _re_translate_unmapped_witness :
  _re_translate (L "abc_09") _re_special_chars_map = L "abc_09".
Proof.
  apply _re_translate_unmapped. intros c Hin. simpl in Hin.
  repeat (destruct Hin as [<-|Hin]; [reflexivity|]). destruct Hin.
Defined.

(** X11. [_re_translate] replaces the first mapped character it meets,
    wherever it occurs, and nothing else: every other character is left as
    it is, even when it has an entry of its own.  So [_re_escape] escapes the
    dot of [a.b*.c] and not its star. *)
Theorem _re_translate_first_only (pre rest : str) (c : ascii) (v : str)
  (chmap : list (nat * str)) :
  (forall x, In x pre -> lookup chmap (ord x) = None) ->
  lookup chmap (ord c) = Some v ->
  _re_translate (pre ++ c :: rest) chmap = pre ++ v ++ replace_char c v rest /\
  (forall d w, d <> c -> lookup chmap (ord d) = Some w ->
               replace_char c v [d] = [d]) /\
  _re_escape (L "a.b*.c") = L "a\.b*\.c".
Proof.
  intros Hpre Hc. split; [|split].
  - unfold _re_translate. rewrite (first_mapped_split chmap pre rest c v Hpre Hc).
    unfold replace_char. rewrite flat_map_app. fold (replace_char c v pre).
    rewrite replace_char_absent.
    + simpl. rewrite Ascii.eqb_refl. reflexivity.
    + intros Hin. apply Hpre in Hin. congruence.
  - intros d w Hd _. apply replace_char_absent. simpl. intuition congruence.
  - reflexivity.
Qed.

Lemma _re_translate_first_only_witness :
  _re_translate (L "ab" ++ "+" :: L "c?+") _re_special_chars_map
  = L "ab" ++ L "\+" ++ replace_char "+" (L "\+") (L "c?+").
Proof.
  apply (_re_translate_first_only (L "ab") (L "c?+") "+" (L "\+")).
  - intros x Hin. simpl in Hin.
    repeat (destruct Hin as [<-|Hin]; [reflexivity|]). destruct Hin.
  - reflexivity.
Defined.

Lemma lookup_special (c : ascii) :
  lookup _re_special_chars_map (ord c)
  = if is_special c then Some ["\"; c] else None.
Proof. each_ascii c; reflexivity. Qed.

Lemma first_mapped_some (chmap : list (nat * str)) (p : str) (f : ascii) (v : str) :
  first_mapped chmap p = Some (f, v) ->
  In f p /\ lookup chmap (ord f) = Some v.
Proof.
  induction p as [|x p IH]; simpl; [discriminate|].
  destruct (lookup chmap (ord x)) as [w|] eqn:E.
  - intros H. injection H as <- <-. auto.
  - intros H. destruct (IH H). auto.
Qed.

Lemma first_mapped_none_inv (chmap : list (nat * str)) (p : str) :
  first_mapped chmap p = None ->
  forall c, In c p -> lookup chmap (ord c) = None.
Proof.
  induction p as [|x p IH]; simpl; [intros _ c []|].
  destruct (lookup chmap (ord x)) as [w|] eqn:E; [discriminate|].
  intros H c [<-|Hin]; [exact E | apply IH; assumption].
Qed.

Lemma flat_map_ext_in {A B} (f g : A -> list B) (l : list A) :
  (forall x, In x l -> f x = g x) -> flat_map f l = flat_map g l.
Proof.
  induction l as [|x l IH]; intros H; [reflexivity|]. simpl.
  rewrite (H x (or_introl eq_refl)), IH; [reflexivity|].
  intros y Hin. apply H. right. assumption.
Qed.

Lemma flat_map_same_length {A B} (f g : A -> list B) (l : list A) :
  (forall x, List.length (f x) <= List.length (g x)) ->
  List.length (flat_map f l) <= List.length (flat_map g l) /\
  (List.length (flat_map f l) = List.length (flat_map g l) ->
   forall x, In x l -> List.length (f x) = List.length (g x)).
Proof.
  intros Hle. induction l as [|x l [IH1 IH2]]; simpl.
  - split; [lia | intros _ x []].
  - rewrite !length_app. pose proof (Hle x). split; [lia|].
    intros E y [<-|Hin]; [lia | apply IH2; [lia | assumption]].
Qed.

Lemma decode_encode (s : str) : decode_latin1 (encode_latin1 s) = s.
Proof.
  unfold decode_latin1, encode_latin1. rewrite map_map.
  rewrite <- (map_id s) at 2. apply map_ext. apply ascii_of_byte_of_ascii.
Qed.


(** X12. The two branches of [_re_escape] differ.  On bytes every special
    character is escaped; on text only the first special character met is.
    They give the same escaped string exactly when all special characters
    of the string are one and the same character; on one character they
    always agree. *)
Theorem _re_escape_branches (p : str) :
  _re_escape_any (Bytes (encode_latin1 p))
  = Bytes (encode_latin1 (str_translate _re_special_chars_map p)) /\
  _re_escape_any (Text p) = Text (_re_escape p) /\
  (forall c, str_translate _re_special_chars_map [c] = _re_escape [c]) /\
  (str_translate _re_special_chars_map p = _re_escape p
   <-> forall c d, In c p -> In d p ->
                   is_special c = true -> is_special d = true -> c = d).
Proof.
  split; [|split; [|split]].
  - simpl. rewrite decode_encode. reflexivity.
  - reflexivity.
  - intros c. rewrite _re_escape_char. unfold str_translate. cbn [flat_map].
    rewrite lookup_special. destruct (is_special c); reflexivity.
  - unfold _re_escape, _re_translate.
    destruct (first_mapped _re_special_chars_map p) as [[f v]|] eqn:Ef.
    + destruct (first_mapped_some _ _ _ _ Ef) as [Hf Hv].
      rewrite lookup_special in Hv.
      destruct (is_special f) eqn:Hsf; [|discriminate]. injection Hv as <-.
      split.
      * intros E c d Hc Hd Hsc Hsd.
        assert (G : forall x, In x p -> is_special x = true -> x = f).
        { intros x Hx Hsx.
          assert (Hle : forall y,
                     List.length (if (y =? f) then ["\"; f] else [y])
                     <= List.length (match lookup _re_special_chars_map (ord y) with
                                     | Some w => w
                                     | None => [y]
                                     end)).
          { intros y. rewrite lookup_special.
            destruct (Ascii.eqb_spec y f) as [->|Hy].
            - rewrite Hsf. simpl. lia.
            - destruct (is_special y); simpl; lia. }
          pose proof (proj2 (flat_map_same_length _ _ p Hle)
                        (f_equal (@List.length ascii) (eq_sym E)) x Hx) as Hlen.
          cbv beta in Hlen. rewrite lookup_special, Hsx in Hlen.
          destruct (Ascii.eqb_spec x f) as [->|Hxf]; [reflexivity|].
          simpl in Hlen. discriminate. }
        rewrite (G c Hc Hsc), (G d Hd Hsd). reflexivity.
      * intros Hall. apply flat_map_ext_in. intros x Hx.
        rewrite lookup_special. destruct (is_special x) eqn:Hsx.
        -- rewrite (Hall x f Hx Hf Hsx Hsf), Ascii.eqb_refl. reflexivity.
        -- assert (Hxf : (x =? f) = false)
             by (apply Ascii.eqb_neq; intros ->; congruence).
           rewrite Hxf. reflexivity.
    + pose proof (first_mapped_none_inv _ _ Ef) as Hn. split.
      * intros _ c d Hc _ Hsc _. apply Hn in Hc.
        rewrite lookup_special, Hsc in Hc. discriminate.
      * intros _. unfold str_translate.
        rewrite (flat_map_ext_in _ (fun x => [x]) p).
        -- clear. induction p as [|x p IH]; [reflexivity|]. simpl. rewrite IH. reflexivity.
        -- intros x Hx. rewrite (Hn x Hx). reflexivity.
Qed.

Lemma _re_escape_branches_witness :
  str_translate _re_special_chars_map (L "a.b.c") = _re_escape (L "a.b.c") /\
  str_translate _re_special_chars_map (L "a.b*") <> _re_escape (L "a.b*").
Proof.
  destruct (_re_escape_branches (L "a.b.c")) as (_ & _ & _ & [_ H1]).
  destruct (_re_escape_branches (L "a.b*")) as (_ & _ & _ & [H2 _]).
  split.
  - apply H1. intros c d Hc Hd Hsc Hsd. simpl in Hc, Hd.
    assert (Gc : c = ".").
    { repeat (destruct Hc as [<-|Hc]; [try reflexivity; discriminate Hsc|]).
      destruct Hc. }
    assert (Gd : d = ".").
    { repeat (destruct Hd as [<-|Hd]; [try reflexivity; discriminate Hsd|]).
      destruct Hd. }
    congruence.
  - intros E.
    assert (Hne : "." = "*") by (apply (H2 E); simpl; auto).
    discriminate Hne.
Defined.


Lemma glob_star_star (ts : list token) (s : str) :
  glob (TStar :: TStar :: ts) s <-> glob (TStar :: ts) s.
Proof.
  split; intros H.
  - inversion H as [ | ts' s1 s2 Hg | t ts' c s' Hne _ _]; subst; [|congruence].
    inversion Hg as [ | ts' s3 s4 Hg' | t ts' c s' Hne _ _]; subst; [|congruence].
    rewrite app_assoc. apply glob_star. exact Hg'.
  - apply (glob_star (TStar :: ts) [] s H).
Qed.

(** X14. Two stars in a row match what one star matches. *)
Theorem star_star (h : host) (ts : list token) (name : str) :
  escape_ok h -> tokens_wf ts -> Forall token_plain ts ->
  fnmatchcase h name (L "**" ++ pattern_of ts)
  = fnmatchcase h name (L "*" ++ pattern_of ts).
Proof.
  intros Hh Hwf Hp.
  assert (H1 : tokens_wf (TStar :: ts)) by (constructor; assumption).
  assert (H2 : tokens_wf (TStar :: TStar :: ts)) by (constructor; assumption).
  assert (P1 : Forall token_plain (TStar :: ts)) by (constructor; [exact I | assumption]).
  assert (P2 : Forall token_plain (TStar :: TStar :: ts))
    by (constructor; [exact I | assumption]).
  destruct (fnmatchcase_glob_aux h _ name Hh H1 P1) as [[b1 E1] G1].
  destruct (fnmatchcase_glob_aux h _ name Hh H2 P2) as [[b2 E2] G2].
  change (pattern_of (TStar :: TStar :: ts)) with (L "**" ++ pattern_of ts) in *.
  change (pattern_of (TStar :: ts)) with (L "*" ++ pattern_of ts) in *.
  rewrite E1, E2 in *. f_equal. rewrite ok_true in G1, G2.
  destruct b1, b2; try reflexivity.
  - apply G2. apply glob_star_star. apply G1. reflexivity.
  - symmetry. apply G1. apply glob_star_star. apply G2. reflexivity.
Qed.

Lemma star_star_witness :
  fnmatchcase uefi_host (L "a.py") (L "**" ++ pattern_of [TChar "."; TChar "p"; TChar "y"])
  = fnmatchcase uefi_host (L "a.py") (L "*" ++ pattern_of [TChar "."; TChar "p"; TChar "y"]).
Proof.
  apply (star_star uefi_host [TChar "."; TChar "p"; TChar "y"] (L "a.py")).
  - exact uefi_escape_ok.
  - repeat (constructor; try reflexivity).
  - repeat constructor.
Defined.

(** X15. A group and its negation split the names of one character: for a
    list of members without range, each one-character name is matched by
    exactly one of [[seq]] and [[!seq]]. *)
Theorem group_complement (h : host) (seq : str) (c : ascii) :
  group_content seq -> negated seq = false -> ~ In "-" seq ->
  exists b,
    fnmatchcase h [c] (L "[" ++ seq ++ L "]") = Ok b /\
    fnmatchcase h [c] (L "[!" ++ seq ++ L "]") = Ok (negb b).
Proof.
  intros Hg Hn Hd.
  assert (Hg' : group_content ("!" :: seq)).
  { destruct Hg as (Hne & _ & Hno). repeat split; try discriminate.
    - intros E. injection E as E. congruence.
    - change (skip_bang ("!" :: seq)) with seq.
      destruct seq as [|x r]; [congruence|]. simpl in Hn.
      apply Ascii.eqb_neq in Hn. rewrite (skip_bang_neq x r Hn) in Hno. exact Hno. }
  assert (Hd' : ~ In "-" ("!" :: seq)) by (intros [H|H]; [discriminate | auto]).
  unfold fnmatchcase.
  rewrite (plain_group_compile h seq Hg Hd).
  change (L "[!" ++ seq ++ L "]") with (L "[" ++ ("!" :: seq) ++ L "]").
  rewrite (plain_group_compile h ("!" :: seq) Hg' Hd').
  cbn [bind]. rewrite Hn, (members_plain seq Hn).
  change (negated ("!" :: seq)) with true.
  change (members ("!" :: seq)) with seq.
  eexists. split; [reflexivity|]. simpl.
  destruct (existsb (item_ok c) (map SLit seq)); reflexivity.
Qed.

Lemma group_complement_witness :
  exists b,
    fnmatchcase uefi_host (L "x") (L "[" ++ L "xyz" ++ L "]") = Ok b /\
    fnmatchcase uefi_host (L "x") (L "[!" ++ L "xyz" ++ L "]") = Ok (negb b).
Proof.
  apply (group_complement uefi_host (L "xyz") "x").
  - unfold group_content. simpl. repeat split; try discriminate.
    intuition discriminate.
  - reflexivity.
  - simpl. intuition discriminate.
Defined.

Lemma glob_min_length (ts : list token) (s : str) :
  glob ts s -> one_char_tokens ts <= List.length s.
Proof.
  intros H. induction H as [ | ts s1 s2 _ IH | t ts c s Hne _ _ IH].
  - unfold one_char_tokens. simpl. lia.
  - unfold one_char_tokens in *. simpl. rewrite length_app. lia.
  - destruct t; try congruence; unfold one_char_tokens in *; simpl; lia.
Qed.

Lemma glob_exact_length (ts : list token) (s : str) :
  ~ In TStar ts -> glob ts s -> List.length s = List.length ts.
Proof.
  intros Hns H. induction H as [ | ts s1 s2 _ IH | t ts c s Hne _ _ IH].
  - reflexivity.
  - exfalso. apply Hns. left. reflexivity.
  - simpl. rewrite IH; [reflexivity|]. intros Hin. apply Hns. right. assumption.
Qed.

(** X16. A name can match only if it has at least one character for every
    token that is not a star, and a pattern without a star matches only
    names with exactly as many characters as it has tokens; so the empty
    name is matched only by patterns made of stars. *)
Theorem match_length (h : host) (ts : list token) (name : str) :
  escape_ok h -> tokens_wf ts -> Forall token_plain ts ->
  fnmatchcase h name (pattern_of ts) = Ok true ->
  one_char_tokens ts <= List.length name /\
  (~ In TStar ts -> List.length name = List.length ts) /\
  (name = [] -> forall t, In t ts -> t = TStar).
Proof.
  intros Hh Hwf Hp Hm.
  apply (proj2 (fnmatchcase_glob_aux h ts name Hh Hwf Hp)) in Hm.
  split; [apply glob_min_length; assumption|].
  split; [intros Hns; apply glob_exact_length; assumption|].
  intros -> t Hin. clear Hwf Hp.
  remember (@nil ascii) as s eqn:Es.
  induction Hm as [ | ts s1 s2 _ IH | t' ts c s Hne _ _ IH]; [destruct Hin| |discriminate].
  destruct Hin as [<-|Hin]; [reflexivity|].
  apply IH; [|assumption]. destruct s1; [exact Es | discriminate].
Qed.

Lemma match_length_witness :
  one_char_tokens [TChar "a"; TStar; TQuestion] <= List.length (L "abc") /\
  (~ In TStar [TChar "a"; TStar; TQuestion] ->
   List.length (L "abc") = List.length [TChar "a"; TStar; TQuestion]) /\
  (L "abc" = [] -> forall t, In t [TChar "a"; TStar; TQuestion] -> t = TStar).
Proof.
  apply (match_length uefi_host [TChar "a"; TStar; TQuestion] (L "abc")).
  - exact uefi_escape_ok.
  - repeat (constructor; try reflexivity).
  - repeat constructor.
  - reflexivity.
Defined.
